(** * Alias manager: the command layer of [src/extension.ts]

    A shallow embedding of the [AliasView] class: the persisted group
    store ([globalState]), the store file, and the commands that mutate
    them.  Host effects (terminal, messages, tree refresh) are recorded
    in an event trace, in program order. *)

From Stdlib Require Import List String Ascii Bool ZArith Lia Arith.
From Stdlib Require Import Permutation Sorted.
Import ListNotations.

Local Open Scope string_scope.
Local Open Scope list_scope.

(* ================================================================== *)
(** ** Strings *)

Definition dquote : ascii := ascii_of_nat 34.
Definition squote : ascii := ascii_of_nat 39.
Definition backslash : ascii := ascii_of_nat 92.
Definition equals : ascii := ascii_of_nat 61.

(** JavaScript's [\s] restricted to the ASCII range. *)
Definition isSpace (c : ascii) : bool :=
  let n := nat_of_ascii c in
  (n =? 32)%nat || ((9 <=? n)%nat && (n <=? 13)%nat).

(** The capital letters among the code units below 256: A to Z, and
    U+00C0 to U+00DE without the multiplication sign U+00D7. *)
Definition isCapital (c : ascii) : bool :=
  let n := nat_of_ascii c in
  ((65 <=? n)%nat && (n <=? 90)%nat)
  || ((192 <=? n)%nat && (n <=? 222)%nat && negb (n =? 215)%nat).

(** The small letter of a capital is 32 above it. *)
Definition lowerCodeUnit (c : ascii) : ascii :=
  if isCapital c then ascii_of_nat (nat_of_ascii c + 32) else c.

(** [String.prototype.toLowerCase] on the strings of this model, whose
    code units are below 256 (Basic Latin and Latin-1). *)
Fixpoint toLowerCase (s : string) : string :=
  match s with
  | EmptyString => EmptyString
  | String c s' => String (lowerCodeUnit c) (toLowerCase s')
  end.

(** [Array.prototype.join]. *)
Fixpoint join (sep : string) (l : list string) : string :=
  match l with
  | [] => ""
  | [x] => x
  | x :: tl => x ++ sep ++ join sep tl
  end.

Fixpoint dropWhile {A} (p : A -> bool) (l : list A) : list A :=
  match l with
  | [] => []
  | x :: tl => if p x then dropWhile p tl else l
  end.

Fixpoint span {A} (p : A -> bool) (l : list A) : list A * list A :=
  match l with
  | [] => ([], [])
  | x :: tl =>
      if p x then let (a, b) := span p tl in (x :: a, b) else ([], l)
  end.

Definition trim (l : list ascii) : list ascii :=
  rev (dropWhile isSpace (rev (dropWhile isSpace l))).

Fixpoint stripPrefix (p l : list ascii) : option (list ascii) :=
  match p, l with
  | [], _ => Some l
  | a :: p', b :: l' => if Ascii.eqb a b then stripPrefix p' l' else None
  | _ :: _, [] => None
  end.

(* ================================================================== *)
(** ** The Alias entity ([src/types.ts], imported by extension.ts) *)

(** [frequency] and [description] are optional in the code: they are
    read as [frequency ?? 0] and [description = ''].  Frequencies are
    JavaScript numbers holding small counters; they are integers here. *)
Record Alias : Type := mkAlias {
  aliasName : string;
  command : string;
  frequency : option Z;
  description : option string
}.

(** Modelled from the spec: [isSameAlias] of the absent [src/utils.ts].
    Two aliases are the same alias iff [aliasName] and [command] are both
    equal (spec section 3, identity). *)
Definition isSameAlias (a b : Alias) : bool :=
  (aliasName a =? aliasName b) && (command a =? command b).

(** The identity of an alias, as a pair. *)
Definition identity (a : Alias) : string * string := (aliasName a, command a).

(** Modelled from the spec: [normalizeAliasesToArray] of the absent
    [src/utils.ts]: the stored sequence, empty when the key is absent
    (spec section 4.5, [getGroup]). *)
Definition normalizeAliasesToArray (v : option (list Alias)) : list Alias :=
  match v with
  | Some l => l
  | None => []
  end.

(** The statement text the code builds for an alias
    ([`alias ${aliasName}='${command}'`], copyAlias and the renames). *)
Definition aliasStatement (name cmd : string) : string :=
  "alias " ++ name ++ "='" ++ cmd ++ "'".

(* ================================================================== *)
(** ** Alias grammar and resolver *)

(** Body of a double-quoted value: every backslash escapes the next
    character; the first unescaped quote must end the text. *)
Fixpoint dquotedBody (l : list ascii) : option (list ascii) :=
  match l with
  | [] => None
  | c :: tl =>
      if Ascii.eqb c dquote then
        match tl with [] => Some [] | _ :: _ => None end
      else if Ascii.eqb c backslash then
        match tl with
        | [] => None
        | e :: tl' => option_map (cons e) (dquotedBody tl')
        end
      else option_map (cons c) (dquotedBody tl)
  end.

Definition squotedBody (l : list ascii) : option (list ascii) :=
  match rev l with
  | c :: rbody =>
      if Ascii.eqb c squote && negb (existsb (Ascii.eqb squote) rbody)
      then Some (rev rbody) else None
  | [] => None
  end.

Definition parseValue (v : list ascii) : option (list ascii) :=
  match v with
  | [] => None
  | c :: rest =>
      if Ascii.eqb c squote then squotedBody rest
      else if Ascii.eqb c dquote then dquotedBody rest
      else if existsb (fun x => isSpace x || Ascii.eqb x squote || Ascii.eqb x dquote) v
      then None else Some v
  end.

(** Modelled from the spec: [resolveAlias] of the absent [src/utils.ts],
    following the grammar of spec section 4.1: after trimming,
    [alias <name>=<value>] with a non-empty name free of whitespace and
    [=], and a value that is single-quoted, double-quoted or an unquoted
    token; the quotes are stripped.  A success carries frequency 0 and an
    empty description (spec section 4.3). *)
Definition resolveAlias (value : string) : option Alias :=
  match stripPrefix (list_ascii_of_string "alias") (trim (list_ascii_of_string value)) with
  | None => None
  | Some rest =>
      match rest with
      | [] => None
      | sp :: _ =>
          if isSpace sp then
            let (name, rest') :=
              span (fun c => negb (isSpace c || Ascii.eqb c equals)) (dropWhile isSpace rest) in
            match name, rest' with
            | _ :: _, eq :: v =>
                if Ascii.eqb eq equals then
                  match parseValue v with
                  | Some cmd =>
                      Some (mkAlias (string_of_list_ascii name)
                                    (string_of_list_ascii cmd) (Some 0%Z) (Some ""))
                  | None => None
                  end
                else None
            | _, _ => None
            end
          else None
      end
  end.

(* ================================================================== *)
(** ** The store file and its writer ([src/aliases.ts], absent) *)

(** The store file, as the spec's data model has it: an ordered
    sequence of text lines. *)
Definition File := list string.

(** Modelled from the spec: [getAliases], the line scanner of spec
    section 4.1: the aliases of the lines that match the grammar, in
    file order; other lines are skipped. *)
Fixpoint getAliases (f : File) : list Alias :=
  match f with
  | [] => []
  | line :: rest =>
      match resolveAlias line with
      | Some a => a :: getAliases rest
      | None => getAliases rest
      end
  end.

(** Modelled from the spec: [appendAliasToStoreFile] ([append] of spec
    section 4.2) appends one line.  The extension passes the text typed
    by the user, which lacks the [alias] keyword it resolves and sends to
    the terminal, so the line written is [alias <text>]. *)
Definition appendAliasToStoreFile (f : File) (content : string) : File :=
  f ++ [("alias " ++ content)%string].

(** Modelled from the spec: [deleteAliases] ([deleteMatching] of spec
    section 4.2).  With an alias, every line whose parsed alias has its
    identity is removed; without one, every alias line is removed. *)
Definition deleteAliases (f : File) (specific : option Alias) : File :=
  filter (fun line =>
            match resolveAlias line, specific with
            | None, _ => true
            | Some _, None => false
            | Some a, Some s => negb (isSameAlias s a)
            end) f.

Inductive StoreError : Type := AliasNotFound.

(** Modelled from the spec: [replaceOne] of spec section 4.2.  It finds
    the first line whose parsed alias has the old identity and replaces
    that line's text; it fails with [AliasNotFound] when no line
    matches. *)
Fixpoint replaceOne (f : File) (old : Alias) (newStatement : string)
  : StoreError + File :=
  match f with
  | [] => inl AliasNotFound
  | line :: rest =>
      match resolveAlias line with
      | Some a =>
          if isSameAlias old a then inr (newStatement :: rest)
          else match replaceOne rest old newStatement with
               | inr rest' => inr (line :: rest')
               | inl e => inl e
               end
      | None =>
          match replaceOne rest old newStatement with
          | inr rest' => inr (line :: rest')
          | inl e => inl e
          end
      end
  end.

(** Modelled from the spec: [renameAliases], the rename of either field,
    is [replaceOne] with the statement of the new alias.  It fails with
    [AliasNotFound] when no line matches; extension.ts calls it with no
    handler, so the failure ends the command (spec sections 4.5
    and 7). *)
Definition renameAliases (f : File) (specificAlias newAlias : Alias)
  : StoreError + File :=
  replaceOne f specificAlias (aliasStatement (aliasName newAlias) (command newAlias)).

(** Modelled from the spec: [formatUnaliasCommand] of the absent
    [src/utils.ts] (spec section 4.4): one command naming every alias to
    unset, separated by spaces. *)
Definition formatUnaliasCommand (aliases : list Alias) : string :=
  "unalias " ++ join " " (map aliasName aliases).



(* ================================================================== *)
(** ** The group store: [vscode.Memento] *)

(** The host's persisted key-value store, as the spec's persistence
    contract describes it: keys are group names, values are serialised
    sequences of alias records.  An update stores a serialised copy, so
    no object is shared between two groups; a read can hand out the
    stored object itself, which shows where the code changes the
    identity of an alias it carries (the renames, see [isDataOf]).  The
    keys are kept in insertion order, the order of the properties of a
    JavaScript object whose names are not array indices. *)
Definition Memento := list (string * list Alias).

Definition keys (m : Memento) : list string := map fst m.

Fixpoint get (key : string) (m : Memento) : option (list Alias) :=
  match m with
  | [] => None
  | (k, v) :: rest => if k =? key then Some v else get key rest
  end.

Fixpoint setEntry (key : string) (value : list Alias) (m : Memento) : Memento :=
  match m with
  | [] => [(key, value)]
  | (k, v) :: rest =>
      if k =? key then (key, value) :: rest else (k, v) :: setEntry key value rest
  end.

Definition removeEntry (key : string) (m : Memento) : Memento :=
  filter (fun e => negb (fst e =? key)) m.

(** [update(key, value)]: [undefined] removes the key; a sequence
    replaces the value of an existing key in place, or adds the key
    last. *)
Definition update (key : string) (value : option (list Alias)) (m : Memento) : Memento :=
  match value with
  | Some v => setEntry key v m
  | None => removeEntry key m
  end.

(* ================================================================== *)
(** ** Tree items and the world *)

#[local] Set Warnings "-register-all".

(** [class AliasItem].  [tooltip] holds the frequency that [setTooltip]
    renders; [description] of the item is its [remark]. *)
Inductive AliasItem : Type :=
  mkAliasItem (label : string) (data : option Alias) (group : string)
              (remark : string) (children : list AliasItem)
              (isLeafNode : bool) (tooltip : Z).

Definition label (i : AliasItem) : string := let (l, _, _, _, _, _, _) := i in l.
Definition data (i : AliasItem) : option Alias := let (_, d, _, _, _, _, _) := i in d.
Definition group (i : AliasItem) : string := let (_, _, g, _, _, _, _) := i in g.
Definition groupName (i : AliasItem) : string := group i.
Definition remark (i : AliasItem) : string := let (_, _, _, r, _, _, _) := i in r.
Definition children (i : AliasItem) : list AliasItem := let (_, _, _, _, c, _, _) := i in c.
Definition isLeafNode (i : AliasItem) : bool := let (_, _, _, _, _, b, _) := i in b.
Definition tooltip (i : AliasItem) : Z := let (_, _, _, _, _, _, t) := i in t.

Definition setItemTooltip (t : Z) (i : AliasItem) : AliasItem :=
  mkAliasItem (label i) (data i) (group i) (remark i) (children i) (isLeafNode i) t.

(** [setTooltip(frequency = 0)]: the number shown. *)
Definition setTooltip (frequency : option Z) : Z :=
  match frequency with Some f => f | None => 0%Z end.

(** The constructor of [AliasItem]. *)
Definition newAliasItem (label : string) (alias : option Alias) (group : string)
  (remark : string) (children : list AliasItem) (isLeafNode : bool) : AliasItem :=
  mkAliasItem label alias group remark children isLeafNode
    (setTooltip (match alias with Some a => frequency a | None => None end)).

(** What the program does to its host, in program order; [Thrown] is a
    failure that leaves a command uncaught and ends it. *)
Inductive Event : Type :=
| StateUpdate (key : string) (value : option (list Alias))
| SendText (text : string)
| ShowErrorMessage (message : string)
| ShowWarningMessage (message : string)
| ShowInformationMessage (message : string)
| ClipboardWrite (text : string)
| TreeDataChanged (item : option AliasItem)
| Thrown (error : StoreError).

Record World : Type := mkWorld {
  globalState : Memento;
  storeFile : File;
  trace : list Event
}.

Definition emit (e : Event) (w : World) : World :=
  mkWorld (globalState w) (storeFile w) (trace w ++ [e]).

(** [this.globalState.update(key, value)]. *)
Definition globalState_update (key : string) (value : option (list Alias)) (w : World) : World :=
  mkWorld (update key value (globalState w)) (storeFile w)
          (trace w ++ [StateUpdate key value]).

(** [this.globalState.get(key)]. *)
Definition globalState_get (key : string) (w : World) : option (list Alias) :=
  get key (globalState w).

Definition writeStoreFile (f : File) (w : World) : World :=
  mkWorld (globalState w) f (trace w).

(** [executeCommandInTerminal(command)]. *)
Definition executeCommandInTerminal (command : string) (w : World) : World :=
  emit (SendText command) w.

(** [this.refresh(alias?)]. *)
Definition refresh (alias : option AliasItem) (w : World) : World :=
  emit (TreeDataChanged alias) w.

(* ================================================================== *)
(** ** Array helpers *)

(** The array after [find] returned its first match and the code
    assigned to a field of that element. *)
Fixpoint updateFirst {A} (p : A -> bool) (f : A -> A) (l : list A) : list A :=
  match l with
  | [] => []
  | x :: tl => if p x then f x :: tl else x :: updateFirst p f tl
  end.

(** The index of the element [find] returns. *)
Fixpoint findIndex {A} (p : A -> bool) (l : list A) : nat :=
  match l with
  | [] => 0
  | x :: tl => if p x then 0 else S (findIndex p tl)
  end.

(** [Array.prototype.sort(compareFn)]: a stable sort.  [insertSorted]
    puts [x] before the first element it does not follow, so an element
    stays ahead of the later elements that compare equal to it. *)
Fixpoint insertSorted {A} (cmp : A -> A -> Z) (x : A) (l : list A) : list A :=
  match l with
  | [] => [x]
  | y :: tl => if (0 <? cmp x y)%Z then y :: insertSorted cmp x tl else x :: y :: tl
  end.

Fixpoint sortArray {A} (cmp : A -> A -> Z) (l : list A) : list A :=
  match l with
  | [] => []
  | x :: tl => insertSorted cmp x (sortArray cmp tl)
  end.

Definition setDescriptionOf (d : string) (a : Alias) : Alias :=
  mkAlias (aliasName a) (command a) (frequency a) (Some d).
Definition setAliasNameOf (n : string) (a : Alias) : Alias :=
  mkAlias n (command a) (frequency a) (description a).
Definition setCommandOf (c : string) (a : Alias) : Alias :=
  mkAlias (aliasName a) c (frequency a) (description a).
(** [runAlias.frequency = (runAlias.frequency ?? 0) + 1]. *)
Definition incrementFrequency (a : Alias) : Alias :=
  mkAlias (aliasName a) (command a)
          (Some (match frequency a with Some f => f | None => 0 end + 1)%Z)
          (description a).

Definition isEmpty {A} (l : list A) : bool :=
  match l with [] => true | _ :: _ => false end.

(* ================================================================== *)
(** ** The commands of [class AliasView] *)

Section AliasView.

(** [SYSTEM_ALIAS] of the absent [src/constants.ts]: the key of the
    system group. *)
Variable SYSTEM_ALIAS : string.

(** The host's [String.prototype.localeCompare]: negative, zero or
    positive. *)
Variable localeCompare : string -> string -> Z.

(** [constructor(globalState)], with the content of the store file. *)
Definition newAliasView (m : Memento) (f : File) : World :=
  globalState_update SYSTEM_ALIAS (Some (getAliases f)) (mkWorld m f []).

(** [setDescription]; [input] is what the input box resolves to. *)
Definition setDescription (alias : AliasItem) (input : option string) (w : World) : World :=
  match data alias with
  | None => w
  | Some d =>
      match input with
      | None => w
      | Some description =>
          let w1 :=
            fold_left
              (fun w groupName =>
                 let aliases := normalizeAliasesToArray (globalState_get groupName w) in
                 match find (isSameAlias d) aliases with
                 | Some _ =>
                     globalState_update groupName
                       (Some (updateFirst (isSameAlias d) (setDescriptionOf description) aliases)) w
                 | None => w
                 end)
              (keys (globalState w)) w in
          refresh None w1
      end
  end.

(** [addAlias]. *)
Definition addAlias (input : option string) (w : World) : World :=
  match input with
  | None => w
  | Some alias =>
      if (String.length alias =? 0)%nat then
        emit (ShowErrorMessage "Alias is mandatory to execute this action") w
      else
        match resolveAlias ("alias " ++ alias) with
        | None => emit (ShowErrorMessage "Please check the format of the input content") w
        | Some resolvedAlias =>
            let aliasNames := map aliasName (getAliases (storeFile w)) in
            if existsb (String.eqb (aliasName resolvedAlias)) aliasNames then
              emit (ShowWarningMessage "Duplicate alias") w
            else
              let w1 := writeStoreFile (appendAliasToStoreFile (storeFile w) alias) w in
              let aliases := normalizeAliasesToArray (globalState_get SYSTEM_ALIAS w1) in
              let w2 :=
                globalState_update SYSTEM_ALIAS
                  (Some (aliases ++
                         [mkAlias (aliasName resolvedAlias) (command resolvedAlias)
                                  (Some 0%Z) (Some "")])) w1 in
              let w3 := executeCommandInTerminal ("alias " ++ alias) w2 in
              refresh None w3
        end
  end.

(** [deleteAllAlias]; [text] is the button the modal resolves to. *)
Definition deleteAllAlias (text : option string) (w : World) : World :=
  match text with
  | None => w
  | Some _ =>
      let aliases := getAliases (storeFile w) in
      if isEmpty aliases then w
      else
        let w1 := executeCommandInTerminal (formatUnaliasCommand aliases) w in
        let w2 := writeStoreFile (deleteAliases (storeFile w1) None) w1 in
        let w3 :=
          fold_left (fun w groupName => globalState_update groupName (Some []) w)
                    (keys (globalState w2)) w2 in
        refresh None w3
  end.

(** [deleteAlias]. *)
Definition deleteAlias (alias : AliasItem) (w : World) : World :=
  match data alias with
  | None => w
  | Some d =>
      let w1 := writeStoreFile (deleteAliases (storeFile w) (Some d)) w in
      let w2 :=
        fold_left
          (fun w groupName =>
             let aliases :=
               filter (fun aliasItem => negb (isSameAlias d aliasItem))
                      (normalizeAliasesToArray (globalState_get groupName w)) in
             globalState_update groupName (Some aliases) w)
          (keys (globalState w1)) w1 in
      let w3 := executeCommandInTerminal (formatUnaliasCommand [d]) w2 in
      refresh None w3
  end.

(** [sameAlias === alias.data], for the alias [find] returned at [index]
    of the sequence of [groupName].  The alias of an item was read from
    the stored sequence of the group of the item when the tree was built;
    [slot] is the index at which the store still holds that very object
    when the command runs, [None] when the store holds a copy of it. *)
Definition isDataOf (alias : AliasItem) (slot : option nat)
  (groupName : string) (index : nat) : bool :=
  match slot with
  | Some i => (groupName =? group alias) && (i =? index)%nat
  | None => false
  end.

(** [renameAliasName].  The loop reads [alias.data] at every key: [cur]
    is its value, which changes when the alias found is the object the
    item carries. *)
Definition renameAliasName (alias : AliasItem) (slot : option nat)
  (input : option string) (w : World) : World :=
  match data alias with
  | None => w
  | Some d =>
      match input with
      | None => w
      | Some aliasName' =>
          if (String.length aliasName' =? 0)%nat then
            emit (ShowErrorMessage "Alias name is mandatory to execute this action") w
          else
            match renameAliases (storeFile w) d
                    (mkAlias aliasName' (command d) None None) with
            | inl error => emit (Thrown error) w
            | inr file =>
                let w1 := writeStoreFile file w in
                let st :=
                  fold_left
                    (fun (st : World * Alias) groupName =>
                       let (w, cur) := st in
                       let aliases :=
                         normalizeAliasesToArray (globalState_get groupName w) in
                       match find (isSameAlias cur) aliases with
                       | Some _ =>
                           (globalState_update groupName
                              (Some (updateFirst (isSameAlias cur)
                                       (setAliasNameOf aliasName') aliases)) w,
                            if isDataOf alias slot groupName
                                 (findIndex (isSameAlias cur) aliases)
                            then setAliasNameOf aliasName' cur else cur)
                       | None => (w, cur)
                       end)
                    (keys (globalState w1)) (w1, d) in
                let w3 :=
                  executeCommandInTerminal
                    (aliasStatement aliasName' (command (snd st))) (fst st) in
                refresh None w3
            end
      end
  end.

(** [renameAliasCommand]. *)
Definition renameAliasCommand (alias : AliasItem) (slot : option nat)
  (input : option string) (w : World) : World :=
  match data alias with
  | None => w
  | Some d =>
      match input with
      | None => w
      | Some command' =>
          if (String.length command' =? 0)%nat then
            emit (ShowErrorMessage "Alias command is mandatory to execute this action") w
          else
            match renameAliases (storeFile w) d
                    (mkAlias (aliasName d) command' None None) with
            | inl error => emit (Thrown error) w
            | inr file =>
                let w1 := writeStoreFile file w in
                let st :=
                  fold_left
                    (fun (st : World * Alias) groupName =>
                       let (w, cur) := st in
                       let aliases :=
                         normalizeAliasesToArray (globalState_get groupName w) in
                       match find (isSameAlias cur) aliases with
                       | Some _ =>
                           (globalState_update groupName
                              (Some (updateFirst (isSameAlias cur)
                                       (setCommandOf command') aliases)) w,
                            if isDataOf alias slot groupName
                                 (findIndex (isSameAlias cur) aliases)
                            then setCommandOf command' cur else cur)
                       | None => (w, cur)
                       end)
                    (keys (globalState w1)) (w1, d) in
                let w3 :=
                  executeCommandInTerminal
                    (aliasStatement (aliasName (snd st)) command') (fst st) in
                refresh None w3
            end
      end
  end.

(** [runAlias]. *)
Definition runAlias (alias : AliasItem) (w : World) : World :=
  match data alias with
  | None => w
  | Some d =>
      let systemAliases := normalizeAliasesToArray (globalState_get (group alias) w) in
      let w1 :=
        match find (isSameAlias d) systemAliases with
        | Some runAlias =>
            let w' :=
              globalState_update (group alias)
                (Some (updateFirst (isSameAlias d) incrementFrequency systemAliases)) w in
            refresh (Some (setItemTooltip
                             (setTooltip (frequency (incrementFrequency runAlias))) alias)) w'
        | None => w
        end in
      executeCommandInTerminal (aliasName d) w1
  end.

(** [copyAlias]. *)
Definition copyAlias (alias : AliasItem) (w : World) : World :=
  match data alias with
  | None => w
  | Some d =>
      emit (ShowInformationMessage "Alias has been added to the clipboard Successfully")
           (emit (ClipboardWrite (aliasStatement (aliasName d) (command d))) w)
  end.

(** [copyAllAlias]. *)
Definition copyAllAlias (alias : AliasItem) (w : World) : World :=
  let aliases := normalizeAliasesToArray (globalState_get (groupName alias) w) in
  if isEmpty aliases then emit (ShowWarningMessage "No alias") w
  else
    let content :=
      join (String (ascii_of_nat 10) "")
           (map (fun a => aliasStatement (aliasName a) (command a)) aliases) in
    emit (ShowInformationMessage "Alias has been added to the clipboard Successfully")
         (emit (ClipboardWrite content) w).

(** [removeFromCurrentGroup]. *)
Definition removeFromCurrentGroup (alias : AliasItem) (w : World) : World :=
  match data alias with
  | None => w
  | Some d =>
      let aliases :=
        filter (fun aliasItem => negb (isSameAlias d aliasItem))
               (normalizeAliasesToArray (globalState_get (group alias) w)) in
      refresh None (globalState_update (group alias) (Some aliases) w)
  end.

(** The groups offered by [addToGroup]:
    [keys().filter((key) => ![SYSTEM_ALIAS, alias.group].includes(key))]. *)
Definition candidateGroups (alias : AliasItem) (w : World) : list string :=
  filter (fun key => negb (existsb (String.eqb key) [SYSTEM_ALIAS; group alias]))
         (keys (globalState w)).

(** [addToGroup]; [pick] is the position the user picks in the quick
    pick's list, [None] when the pick is cancelled. *)
Definition addToGroup (alias : AliasItem) (pick : option nat) (w : World) : World :=
  match data alias with
  | None => w
  | Some d =>
      let groups := candidateGroups alias w in
      if isEmpty groups then emit (ShowWarningMessage "No any group can be added") w
      else
        match match pick with Some i => nth_error groups i | None => None end with
        | None => w
        | Some selectedGroup =>
            let aliases := normalizeAliasesToArray (globalState_get selectedGroup w) in
            refresh None (globalState_update selectedGroup (Some (aliases ++ [d])) w)
        end
  end.

(** [deleteGroup]. *)
Definition deleteGroup (alias : AliasItem) (w : World) : World :=
  refresh None (globalState_update (group alias) None w).

(** [renameGroup]. *)
Definition renameGroup (alias : AliasItem) (input : option string) (w : World) : World :=
  match input with
  | None => w
  | Some group' =>
      if (String.length group' =? 0)%nat then
        emit (ShowErrorMessage "Group is mandatory to execute this action") w
      else if existsb (String.eqb group') (keys (globalState w)) then
        emit (ShowErrorMessage "Duplicate group") w
      else
        let aliases := normalizeAliasesToArray (globalState_get (group alias) w) in
        let w1 := globalState_update (group alias) None w in
        let w2 := globalState_update group' (Some aliases) w1 in
        refresh None w2
  end.

(** [addNewGroup]. *)
Definition addNewGroup (input : option string) (w : World) : World :=
  match input with
  | None => w
  | Some group' =>
      if (String.length group' =? 0)%nat then
        emit (ShowErrorMessage "Group is mandatory to execute this action") w
      else if existsb (String.eqb group') (keys (globalState w)) then
        emit (ShowErrorMessage "Duplicate group") w
      else refresh None (globalState_update group' (Some []) w)
  end.

(** The comparator of [sortByAlphabet]. *)
Definition compareAlphabet (a b : Alias) : Z :=
  localeCompare (toLowerCase (aliasName a)) (toLowerCase (aliasName b)).

(** The comparator of [sortByFrequency]:
    [(a.frequency ?? 0) - (b.frequency ?? 0)]. *)
Definition compareFrequency (a b : Alias) : Z :=
  (match frequency a with Some f => f | None => 0 end
   - match frequency b with Some f => f | None => 0 end)%Z.

(** [sortByAlphabet]. *)
Definition sortByAlphabet (alias : AliasItem) (w : World) : World :=
  let aliases := normalizeAliasesToArray (globalState_get (group alias) w) in
  if isEmpty aliases then w
  else refresh None
         (globalState_update (group alias) (Some (sortArray compareAlphabet aliases)) w).

(** [sortByFrequency]. *)
Definition sortByFrequency (alias : AliasItem) (w : World) : World :=
  let aliases := normalizeAliasesToArray (globalState_get (group alias) w) in
  if isEmpty aliases then w
  else refresh None
         (globalState_update (group alias) (Some (sortArray compareFrequency aliases)) w).

(** [getAliasTree]. *)
Definition getAliasTree (w : World) : list AliasItem * World :=
  let w1 := globalState_update SYSTEM_ALIAS (Some (getAliases (storeFile w))) w in
  (map (fun key =>
          let children :=
            map (fun alias =>
                   newAliasItem (aliasName alias ++ " = '" ++ command alias ++ "'")
                     (Some alias) key
                     (match description alias with Some s => s | None => "" end)
                     [] true)
                (normalizeAliasesToArray (globalState_get key w1)) in
          newAliasItem key None key "" children false)
       (keys (globalState w1)),
   w1).

(** [getChildren]. *)
Definition getChildren (element : option AliasItem) (w : World) : list AliasItem * World :=
  match element with
  | Some e => (children e, w)
  | None => getAliasTree w
  end.

(** [contextValue] as the constructor of [AliasItem] sets it. *)
Definition contextValue (i : AliasItem) : string :=
  if negb (isLeafNode i) then
    if label i =? SYSTEM_ALIAS then "alias_system_parent" else "alias_parent"
  else
    if group i =? SYSTEM_ALIAS then "alias_system_child" else "alias_child".

End AliasView.

(* ================================================================== *)
(** ** Specification vocabulary *)

(** The loops [for (const groupName of this.globalState.keys())] all
    have one shape: each group's sequence is read, and written back when
    [f] yields a new sequence. *)
Definition rewriteGroups (f : list Alias -> option (list Alias))
  (ks : list string) (w : World) : World :=
  fold_left
    (fun w groupName =>
       match f (normalizeAliasesToArray (globalState_get groupName w)) with
       | Some v => globalState_update groupName (Some v) w
       | None => w
       end)
    ks w.

(** The body of the description and rename loops. *)
Definition editFirst (d : Alias) (edit : Alias -> Alias) (l : list Alias)
  : option (list Alias) :=
  match find (isSameAlias d) l with
  | Some _ => Some (updateFirst (isSameAlias d) edit l)
  | None => None
  end.

(** [l'] is [l] with its first alias of identity [d] edited and nothing
    else changed. *)
Definition firstMatchEdited (d : Alias) (edit : Alias -> Alias) (l l' : list Alias) : Prop :=
  exists pre a post,
    l = pre ++ a :: post /\
    isSameAlias d a = true /\
    (forall x, In x pre -> isSameAlias d x = false) /\
    l' = pre ++ edit a :: post.


(** A comparator is consistent when it orders its arguments as a total
    preorder does. *)
Definition consistentComparator {A} (cmp : A -> A -> Z) : Prop :=
  (forall a b, (0 < cmp a b)%Z <-> (cmp b a < 0)%Z) /\
  (forall a b c, (cmp a b <= 0)%Z -> (cmp b c <= 0)%Z -> (cmp a c <= 0)%Z).

(** [l'] is a stable sort of [l] for [cmp]: a rearrangement of [l],
    ascending, in which the aliases that compare equal to any given one
    keep their order. *)
Definition stableSortOf {A} (cmp : A -> A -> Z) (l l' : list A) : Prop :=
  Permutation l l' /\
  StronglySorted (fun a b => (cmp a b <= 0)%Z) l' /\
  forall x, filter (fun y => (cmp x y =? 0)%Z) l' = filter (fun y => (cmp x y =? 0)%Z) l.

(** Comparison of strings by code units, a consistent comparator that
    stands for the host's collation in the examples. *)
Definition codeUnitCompare (a b : string) : Z :=
  match String.compare a b with
  | Lt => (-1)%Z
  | Eq => 0%Z
  | Gt => 1%Z
  end.

(** The line parses to an alias of the identity of [old]. *)
Definition lineHasIdentity (old : Alias) (line : string) : bool :=
  match resolveAlias line with
  | Some a => isSameAlias old a
  | None => false
  end.

Definition frequencyOrZero (a : Alias) : Z :=
  match frequency a with Some f => f | None => 0%Z end.

(** The claim that a run increments the counter of the identity in every
    group of the store. *)
Definition runAlias_increments_in_every_group : Prop :=
  forall (alias : AliasItem) (d : Alias) (w : World) (g : string) (l : list Alias),
    data alias = Some d ->
    get g (globalState w) = Some l ->
    get g (globalState (runAlias alias w)) =
    Some (map (fun a => if isSameAlias d a then incrementFrequency a else a) l).

(** The requests the host makes to the view: the population of the tree
    ([getChildren] on the root) and the commands registered by
    [activate]. *)
Inductive Command : Type :=
| PopulateTree
| Add (input : option string)
| DeleteAlias (alias : AliasItem)
| DeleteAllAlias (text : option string)
| RenameAliasName (alias : AliasItem) (slot : option nat) (input : option string)
| RenameAliasCommand (alias : AliasItem) (slot : option nat) (input : option string)
| Run (alias : AliasItem)
| CopyAllAlias (alias : AliasItem)
| Copy (alias : AliasItem)
| RenameGroup (alias : AliasItem) (input : option string)
| NewGroup (input : option string)
| DeleteGroup (alias : AliasItem)
| SetDescription (alias : AliasItem) (input : option string)
| AddToGroup (alias : AliasItem) (pick : option nat)
| RemoveFromCurrentGroup (alias : AliasItem)
| SortByAlphabet (alias : AliasItem)
| SortByFrequency (alias : AliasItem).

Definition execute (SYSTEM_ALIAS : string) (localeCompare : string -> string -> Z)
  (c : Command) (w : World) : World :=
  match c with
  | PopulateTree => snd (getChildren SYSTEM_ALIAS None w)
  | Add input => addAlias SYSTEM_ALIAS input w
  | DeleteAlias alias => deleteAlias alias w
  | DeleteAllAlias text => deleteAllAlias text w
  | RenameAliasName alias slot input => renameAliasName alias slot input w
  | RenameAliasCommand alias slot input => renameAliasCommand alias slot input w
  | Run alias => runAlias alias w
  | CopyAllAlias alias => copyAllAlias alias w
  | Copy alias => copyAlias alias w
  | RenameGroup alias input => renameGroup alias input w
  | NewGroup input => addNewGroup input w
  | DeleteGroup alias => deleteGroup alias w
  | SetDescription alias input => setDescription alias input w
  | AddToGroup alias pick => addToGroup SYSTEM_ALIAS alias pick w
  | RemoveFromCurrentGroup alias => removeFromCurrentGroup alias w
  | SortByAlphabet alias => sortByAlphabet localeCompare alias w
  | SortByFrequency alias => sortByFrequency alias w
  end.

(** The membership of the system group: the identities it holds. *)
Definition systemMembership (SYSTEM_ALIAS : string) (w : World) : list (string * string) :=
  map identity (normalizeAliasesToArray (get SYSTEM_ALIAS (globalState w))).

Definition isPopulateOrAdd (c : Command) : bool :=
  match c with
  | PopulateTree | Add _ => true
  | _ => false
  end.

(** The requests that can change the membership of the system group. *)
Definition writesSystemMembership (SYSTEM_ALIAS : string) (c : Command) : bool :=
  match c with
  | PopulateTree | Add _ | DeleteAlias _ | DeleteAllAlias _
  | RenameAliasName _ _ _ | RenameAliasCommand _ _ _ => true
  | RemoveFromCurrentGroup alias | DeleteGroup alias | RenameGroup alias _ =>
      group alias =? SYSTEM_ALIAS
  | _ => false
  end.

(** The claim that the population of the tree and the add-alias flow are
    the only requests that change the membership of the system group. *)
Definition only_populate_and_add_change_system_membership : Prop :=
  forall (SYSTEM_ALIAS : string) (localeCompare : string -> string -> Z)
         (c : Command) (w : World),
    In SYSTEM_ALIAS (keys (globalState w)) ->
    NoDup (keys (globalState w)) ->
    isPopulateOrAdd c = false ->
    Permutation (systemMembership SYSTEM_ALIAS (execute SYSTEM_ALIAS localeCompare c w))
                (systemMembership SYSTEM_ALIAS w).


(** *** The rename loop *)

(** One turn of the loop of a rename, for the edit of either field. *)
Definition renameStep (alias : AliasItem) (slot : option nat) (edit : Alias -> Alias)
  (st : World * Alias) (groupName : string) : World * Alias :=
  let (w, cur) := st in
  let aliases := normalizeAliasesToArray (globalState_get groupName w) in
  match find (isSameAlias cur) aliases with
  | Some _ =>
      (globalState_update groupName
         (Some (updateFirst (isSameAlias cur) edit aliases)) w,
       if isDataOf alias slot groupName (findIndex (isSameAlias cur) aliases)
       then edit cur else cur)
  | None => (w, cur)
  end.

(** In store [m], the alias that [find] returns in the group of the item
    is the object the item carries. *)
Definition carriedObjectFound (alias : AliasItem) (slot : option nat) (d : Alias)
  (m : Memento) : bool :=
  let l := normalizeAliasesToArray (get (group alias) m) in
  existsb (isSameAlias d) l
  && isDataOf alias slot (group alias) (findIndex (isSameAlias d) l).

(** The keys up to and including the first [k]; all of them when [k] is
    not among them. *)
Fixpoint upTo (k : string) (ks : list string) : list string :=
  match ks with
  | [] => []
  | x :: rest => if x =? k then [x] else x :: upTo k rest
  end.


(** The keys at which the loop of a rename compares with the pre-edit
    identity. *)
Definition reachedKeys (alias : AliasItem) (slot : option nat) (d : Alias)
  (m : Memento) (ks : list string) : list string :=
  if carriedObjectFound alias slot d m then upTo (group alias) ks else ks.



(** *** Letters and collations *)

(** Two code units are the same letter: equal, or a capital and its small
    letter. *)
Definition sameLetter (a b : ascii) : bool :=
  Ascii.eqb a b
  || (isCapital a && (nat_of_ascii b =? nat_of_ascii a + 32)%nat)
  || (isCapital b && (nat_of_ascii a =? nat_of_ascii b + 32)%nat).

(** Two texts differ in the case of their letters only. *)
Fixpoint equalIgnoringCase (s t : string) : bool :=
  match s, t with
  | EmptyString, EmptyString => true
  | String a s', String b t' => sameLetter a b && equalIgnoringCase s' t'
  | _, _ => false
  end.

(** The host's collation orders texts as their code units do. *)
Definition ordersByCodeUnits (localeCompare : string -> string -> Z) : Prop :=
  forall x y, (localeCompare x y <= 0)%Z <-> String.leb x y = true.

Fixpoint mapString (f : ascii -> ascii) (s : string) : string :=
  match s with
  | EmptyString => EmptyString
  | String c s' => String (f c) (mapString f s')
  end.

(** A collation that ranks the underscore with the punctuation, before
    the digits and the letters, as the Unicode collation does; the other
    code units are in their own order. *)
Definition underscoreFirstCompare (a b : string) : Z :=
  let rank := mapString (fun c => if Ascii.eqb c "_" then "!"%char else c) in
  match String.compare (rank a) (rank b) with
  | Lt => (-1)%Z
  | Eq => 0%Z
  | Gt => 1%Z
  end.

(** The claim that the alphabetic sort leaves the group in the order of
    the code units of the lower-cased names, whatever the collation of
    the host. *)
Definition alphabetic_sort_is_by_code_units : Prop :=
  forall (localeCompare : string -> string -> Z) (alias : AliasItem) (w : World),
    consistentComparator localeCompare ->
    StronglySorted
      (fun a b => String.leb (toLowerCase (aliasName a)) (toLowerCase (aliasName b)) = true)
      (normalizeAliasesToArray
         (get (group alias) (globalState (sortByAlphabet localeCompare alias w)))).

(** *** Frames and measures *)

(** The texts sent to the terminal, in order. *)
Fixpoint sentTexts (tr : list Event) : list string :=
  match tr with
  | [] => []
  | SendText t :: rest => t :: sentTexts rest
  | _ :: rest => sentTexts rest
  end.

(** The requests that write the store file. *)
Definition writesStoreFile (c : Command) : bool :=
  match c with
  | Add _ | DeleteAlias _ | DeleteAllAlias _
  | RenameAliasName _ _ _ | RenameAliasCommand _ _ _ => true
  | _ => false
  end.

(** The requests that send text to the terminal. *)
Definition sendsToTerminal (c : Command) : bool :=
  match c with
  | Add _ | DeleteAlias _ | DeleteAllAlias _
  | RenameAliasName _ _ _ | RenameAliasCommand _ _ _ | Run _ => true
  | _ => false
  end.

(** The requests that can add or remove a key of the group store. *)
Definition changesGroupSet (c : Command) : bool :=
  match c with
  | RenameGroup _ _ | NewGroup _ | DeleteGroup _ | RemoveFromCurrentGroup _ => true
  | _ => false
  end.

(** The requests that can remove the key of the system group. *)
Definition removesSystemKey (SYSTEM_ALIAS : string) (c : Command) : bool :=
  match c with
  | DeleteGroup alias | RenameGroup alias _ => group alias =? SYSTEM_ALIAS
  | _ => false
  end.

(** The sum of the counters of a sequence, a missing counter counting
    as 0. *)
Definition totalFrequency (l : list Alias) : Z :=
  fold_right (fun a acc => (frequencyOrZero a + acc)%Z) 0%Z l.

(** The node [getAliasTree] builds for a group, and the leaf it builds
    for an alias of a group. *)
Definition groupNode (key : string) : AliasItem :=
  newAliasItem key None key "" [] false.

Definition leafNode (key : string) (a : Alias) : AliasItem :=
  newAliasItem (aliasName a ++ " = '" ++ command a ++ "'") (Some a) key
    (match description a with Some s => s | None => "" end) [] true.

(** Two stores hold the same sequences under the same keys. *)
Definition sameGroups (m m' : Memento) : Prop :=
  forall g, get g m' = get g m.

(** *** Sample data *)

Definition nv : Alias := mkAlias "nv" "node -v" (Some 0%Z) (Some "").
Definition gs : Alias := mkAlias "gs" "git status" (Some 3%Z) (Some "status").
Definition gp : Alias := mkAlias "gp" "git push" None None.

Definition sampleFile : File :=
  ["# aliases"; "alias nv='node -v'"; "export PATH=/bin"; "alias gs='git status'"].

Definition sampleStore : Memento :=
  [("system", [nv; gs]); ("work", [gs; nv; gp]); ("misc", [gp])].

Definition sampleWorld : World := mkWorld sampleStore sampleFile [].

Definition nvItem : AliasItem :=
  newAliasItem "nv = 'node -v'" (Some nv) "system" "" [] true.

Definition workItem : AliasItem :=
  newAliasItem "work" None "work" "" [] false.

Definition gpItem : AliasItem :=
  newAliasItem "gp = 'git push'" (Some gp) "misc" "" [] true.

(** Three groups that hold [nv], and the item of group [work]. *)
Definition sharedStore : Memento :=
  [("system", [nv]); ("work", [nv]); ("misc", [nv])].

Definition sharedWorld : World := mkWorld sharedStore sampleFile [].

Definition nvWorkItem : AliasItem :=
  newAliasItem "nv = 'node -v'" (Some nv) "work" "" [] true.

(** A group whose names differ in case. *)
Definition caseStore : Memento :=
  [("work", [mkAlias "b" "1" None None; mkAlias "C" "2" None None;
             mkAlias "A" "3" None None; mkAlias "B" "4" None None])].

Definition caseWorld : World := mkWorld caseStore [] [].

(** A group with a digit and an underscore in its names. *)
Definition mixedStore : Memento :=
  [("system", [mkAlias "g1" "git log -1" None None; mkAlias "g_s" "git status" None None])].

Definition mixedWorld : World := mkWorld mixedStore [] [].

(* ================================================================== *)
(** ** The grammar on the examples of the specification *)

Example resolve_single_quoted :
  resolveAlias "alias nv='node -v'" = Some (mkAlias "nv" "node -v" (Some 0%Z) (Some "")).
Proof. reflexivity. Qed.

Example resolve_no_equals : resolveAlias "alias broken" = None.
Proof. reflexivity. Qed.

(** [alias x=<dq>a \<dq>b\<dq> c<dq>], where <dq> is the double quote. *)
Example resolve_double_quoted :
  resolveAlias
    ("alias x=" ++ String dquote ("a " ++ String backslash (String dquote ("b"
       ++ String backslash (String dquote (" c" ++ String dquote EmptyString))))))
  = Some (mkAlias "x" ("a " ++ String dquote ("b" ++ String dquote " c"))
                  (Some 0%Z) (Some "")).
Proof. reflexivity. Qed.

Example getAliases_sample :
  getAliases sampleFile = [nv; mkAlias "gs" "git status" (Some 0%Z) (Some "")].
Proof. reflexivity. Qed.

(* ================================================================== *)
(** ** Lemmas on the group store *)

Lemma get_setEntry_eq (k : string) (v : list Alias) (m : Memento) :
  get k (setEntry k v m) = Some v.
Proof.
  induction m as [|[k' v'] m IH]; simpl.
  - now rewrite String.eqb_refl.
  - destruct (k' =? k) eqn:E; simpl.
    + now rewrite String.eqb_refl.
    + now rewrite E.
Qed.

Lemma get_setEntry_ne (k k' : string) (v : list Alias) (m : Memento) :
  k' <> k -> get k' (setEntry k v m) = get k' m.
Proof.
  intros Hne. induction m as [|[k0 v0] m IH]; simpl.
  - destruct (k =? k') eqn:E; [apply String.eqb_eq in E; congruence | reflexivity].
  - destruct (k0 =? k) eqn:E; simpl.
    + apply String.eqb_eq in E. subst k0.
      destruct (k =? k') eqn:E'; [apply String.eqb_eq in E'; congruence | reflexivity].
    + now rewrite IH.
Qed.

Lemma keys_setEntry_in (k : string) (v : list Alias) (m : Memento) :
  In k (keys m) -> keys (setEntry k v m) = keys m.
Proof.
  induction m as [|[k0 v0] m IH]; simpl; [tauto|].
  intros [->|Hin].
  - now rewrite String.eqb_refl.
  - destruct (k0 =? k) eqn:E; simpl.
    + apply String.eqb_eq in E. now subst.
    + now rewrite IH.
Qed.

Lemma setEntry_notin (k : string) (v : list Alias) (m : Memento) :
  ~ In k (keys m) -> setEntry k v m = m ++ [(k, v)].
Proof.
  induction m as [|[k0 v0] m IH]; simpl; [reflexivity|].
  intros Hn. destruct (k0 =? k) eqn:E.
  - apply String.eqb_eq in E. tauto.
  - rewrite IH; tauto.
Qed.

Lemma get_removeEntry_eq (k : string) (m : Memento) : get k (removeEntry k m) = None.
Proof.
  induction m as [|[k0 v0] m IH]; simpl; [reflexivity|].
  destruct (k0 =? k) eqn:E; simpl; [assumption | now rewrite E].
Qed.

Lemma get_removeEntry_ne (k k' : string) (m : Memento) :
  k' <> k -> get k' (removeEntry k m) = get k' m.
Proof.
  intros Hne. induction m as [|[k0 v0] m IH]; simpl; [reflexivity|].
  destruct (k0 =? k) eqn:E; simpl.
  - apply String.eqb_eq in E. subst k0.
    destruct (k =? k') eqn:E'; [apply String.eqb_eq in E'; congruence | assumption].
  - now rewrite IH.
Qed.

Lemma keys_removeEntry (k : string) (m : Memento) :
  keys (removeEntry k m) = filter (fun k' => negb (k' =? k)) (keys m).
Proof.
  induction m as [|[k0 v0] m IH]; simpl; [reflexivity|].
  destruct (k0 =? k); simpl; now rewrite IH.
Qed.

Lemma removeEntry_notin (k : string) (m : Memento) : ~ In k (keys (removeEntry k m)).
Proof.
  rewrite keys_removeEntry, filter_In. intros [_ H].
  now rewrite String.eqb_refl in H.
Qed.

Lemma get_in_keys (k : string) (m : Memento) (l : list Alias) :
  get k m = Some l -> In k (keys m).
Proof.
  induction m as [|[k0 v0] m IH]; simpl; [discriminate|].
  destruct (k0 =? k) eqn:E.
  - apply String.eqb_eq in E. now left.
  - intros H. right. now apply IH.
Qed.


Lemma in_keys_get (k : string) (m : Memento) :
  In k (keys m) -> exists l, get k m = Some l.
Proof.
  intros Hin. destruct (get k m) eqn:E; [eauto|].
  induction m as [|[k0 v0] m IH]; simpl in *; [tauto|].
  destruct (k0 =? k) eqn:E'; [discriminate|].
  destruct Hin as [->|Hin]; [now rewrite String.eqb_refl in E' | auto].
Qed.

Lemma existsb_eqb_in (k : string) (l : list string) :
  existsb (String.eqb k) l = true <-> In k l.
Proof.
  rewrite existsb_exists. split.
  - intros [x [Hin E]]. apply String.eqb_eq in E. now subst.
  - intros Hin. exists k. split; [assumption | apply String.eqb_refl].
Qed.

Lemma setEntry_setEntry (k : string) (v v' : list Alias) (m : Memento) :
  setEntry k v (setEntry k v' m) = setEntry k v m.
Proof.
  induction m as [|[k0 v0] m IH]; simpl.
  - now rewrite String.eqb_refl.
  - destruct (k0 =? k) eqn:E; simpl.
    + now rewrite String.eqb_refl.
    + now rewrite E, IH.
Qed.

Lemma setEntry_get_same (k : string) (v : list Alias) (m : Memento) :
  get k m = Some v -> setEntry k v m = m.
Proof.
  induction m as [|[k0 v0] m IH]; simpl; [discriminate|].
  destruct (k0 =? k) eqn:E.
  - apply String.eqb_eq in E. intros H. injection H as ->. now subst.
  - intros H. now rewrite IH.
Qed.

(** Unique keys are kept by every update. *)
Lemma NoDup_keys_update (k : string) (v : option (list Alias)) (m : Memento) :
  NoDup (keys m) -> NoDup (keys (update k v m)).
Proof.
  intros Hnd. destruct v as [v|]; simpl.
  - destruct (in_dec string_dec k (keys m)) as [Hin|Hn].
    + now rewrite keys_setEntry_in.
    + rewrite setEntry_notin by assumption. unfold keys. rewrite map_app. simpl.
      apply NoDup_app; [exact Hnd | repeat constructor; simpl; tauto |].
      intros x Hx [<-|[]]. exact (Hn Hx).
  - rewrite keys_removeEntry. now apply NoDup_filter.
Qed.

(* ================================================================== *)
(** ** Lemmas on the propagation loops *)

Lemma rewriteGroups_cons f k ks w :
  rewriteGroups f (k :: ks) w =
  rewriteGroups f ks
    match f (normalizeAliasesToArray (globalState_get k w)) with
    | Some v => globalState_update k (Some v) w
    | None => w
    end.
Proof. reflexivity. Qed.

Lemma rewriteGroups_storeFile f ks w : storeFile (rewriteGroups f ks w) = storeFile w.
Proof.
  revert w. induction ks as [|k ks IH]; intros w; [reflexivity|].
  rewrite rewriteGroups_cons, IH. now destruct (f _).
Qed.

Lemma rewriteGroups_keys f ks w :
  (forall k, In k ks -> In k (keys (globalState w))) ->
  keys (globalState (rewriteGroups f ks w)) = keys (globalState w).
Proof.
  revert w. induction ks as [|k ks IH]; intros w Hsub; [reflexivity|].
  rewrite rewriteGroups_cons.
  assert (Hk : In k (keys (globalState w))) by (apply Hsub; now left).
  destruct (f _) as [v|].
  - rewrite IH; simpl.
    + now apply keys_setEntry_in.
    + intros k' Hin. rewrite keys_setEntry_in by assumption. apply Hsub. now right.
  - apply IH. intros k' Hin. apply Hsub. now right.
Qed.

Lemma rewriteGroups_get_notin f ks w g :
  ~ In g ks -> get g (globalState (rewriteGroups f ks w)) = get g (globalState w).
Proof.
  revert w. induction ks as [|k ks IH]; intros w Hn; [reflexivity|].
  rewrite rewriteGroups_cons. simpl in Hn.
  rewrite IH by tauto.
  destruct (f _) as [v|]; [|reflexivity].
  simpl. apply get_setEntry_ne. intros ->. tauto.
Qed.

Lemma rewriteGroups_get_in f ks w g :
  NoDup ks -> In g ks ->
  get g (globalState (rewriteGroups f ks w)) =
  match f (normalizeAliasesToArray (get g (globalState w))) with
  | Some v => Some v
  | None => get g (globalState w)
  end.
Proof.
  revert w. induction ks as [|k ks IH]; intros w Hnd Hin; [destruct Hin|].
  inversion Hnd as [|? ? Hnk Hnd']; subst.
  rewrite rewriteGroups_cons. unfold globalState_get.
  destruct (string_dec k g) as [->|Hne].
  - rewrite rewriteGroups_get_notin by assumption.
    destruct (f _) as [v|]; [|reflexivity].
    simpl. apply get_setEntry_eq.
  - destruct Hin as [->|Hin]; [congruence|].
    rewrite IH by assumption.
    destruct (f (normalizeAliasesToArray (get k (globalState w)))) as [v|]; [|reflexivity].
    simpl. rewrite get_setEntry_ne by congruence. reflexivity.
Qed.

Lemma find_existsb {A} (p : A -> bool) (l : list A) :
  existsb p l = match find p l with Some _ => true | None => false end.
Proof.
  induction l as [|x l IH]; simpl; [reflexivity|].
  now destruct (p x).
Qed.

Lemma updateFirst_split {A} (p : A -> bool) (f : A -> A) (l : list A) :
  existsb p l = true ->
  exists pre a post,
    l = pre ++ a :: post /\ p a = true /\
    (forall x, In x pre -> p x = false) /\
    updateFirst p f l = pre ++ f a :: post.
Proof.
  induction l as [|x l IH]; simpl; [discriminate|].
  destruct (p x) eqn:E; simpl.
  - intros _. exists [], x, l. simpl. tauto.
  - intros H. destruct (IH H) as (pre & a & post & -> & Ha & Hpre & Hup).
    exists (x :: pre), a, post. simpl. rewrite Hup.
    repeat split; trivial. intros y [<-|Hy]; auto.
Qed.

Lemma updateFirst_none {A} (p : A -> bool) (f : A -> A) (l : list A) :
  existsb p l = false -> updateFirst p f l = l.
Proof.
  induction l as [|x l IH]; simpl; [reflexivity|].
  destruct (p x); simpl; [discriminate|].
  intros H. now rewrite IH.
Qed.


(* ================================================================== *)
(** ** The commands as loops over the groups *)

Lemma length_eqb_0_false (s : string) : s <> "" -> (String.length s =? 0)%nat = false.
Proof. destruct s; [congruence | reflexivity]. Qed.

Lemma fold_left_ext {A B} (f g : A -> B -> A) (l : list B) (a : A) :
  (forall x y, f x y = g x y) -> fold_left f l a = fold_left g l a.
Proof.
  intros Hfg. revert a. induction l as [|y l IH]; intros a; simpl; [reflexivity|].
  now rewrite Hfg, IH.
Qed.

(** An inlined loop is the shared loop when their bodies agree. *)
Ltac loop_is_rewriteGroups :=
  unfold rewriteGroups; apply fold_left_ext; intros ? ?; unfold editFirst;
  try match goal with |- context [find ?p ?l] => destruct (find p l) end;
  reflexivity.

Lemma setDescription_unfold alias d text w :
  data alias = Some d ->
  setDescription alias (Some text) w =
  refresh None
    (rewriteGroups (editFirst d (setDescriptionOf text)) (keys (globalState w)) w).
Proof.
  intros Hd. unfold setDescription. rewrite Hd. f_equal. loop_is_rewriteGroups.
Qed.

Lemma replaceOne_found (f : File) (old : Alias) (stmt : string) :
  existsb (lineHasIdentity old) f = true ->
  replaceOne f old stmt = inr (updateFirst (lineHasIdentity old) (fun _ => stmt) f).
Proof.
  induction f as [|line rest IH]; simpl; [discriminate|].
  unfold lineHasIdentity at 1 3.
  destruct (resolveAlias line) as [a|]; simpl.
  - destruct (isSameAlias old a); simpl; [reflexivity|].
    intros H. now rewrite (IH H).
  - intros H. now rewrite (IH H).
Qed.

Lemma replaceOne_not_found (f : File) (old : Alias) (stmt : string) :
  existsb (lineHasIdentity old) f = false ->
  replaceOne f old stmt = inl AliasNotFound.
Proof.
  induction f as [|line rest IH]; simpl; [reflexivity|].
  unfold lineHasIdentity at 1.
  destruct (resolveAlias line) as [a|]; simpl.
  - destruct (isSameAlias old a); simpl; [discriminate|].
    intros H. now rewrite (IH H).
  - intros H. now rewrite (IH H).
Qed.

(** *** The loop of a rename *)

Lemma renameStep_other alias slot edit w cur k :
  k <> group alias ->
  renameStep alias slot edit (w, cur) k
  = (match editFirst cur edit (normalizeAliasesToArray (globalState_get k w)) with
     | Some v => globalState_update k (Some v) w
     | None => w
     end, cur).
Proof.
  intros Hne. unfold renameStep, editFirst, isDataOf.
  apply String.eqb_neq in Hne.
  destruct (find _ _); [|reflexivity].
  destruct slot; [now rewrite Hne | reflexivity].
Qed.

Lemma renameLoop_other alias slot edit ks w cur :
  ~ In (group alias) ks ->
  fold_left (renameStep alias slot edit) ks (w, cur)
  = (rewriteGroups (editFirst cur edit) ks w, cur).
Proof.
  revert w. induction ks as [|k ks IH]; intros w Hn; [reflexivity|].
  cbn [fold_left]. rewrite renameStep_other, rewriteGroups_cons.
  - apply IH. intros H. apply Hn. now right.
  - intros ->. apply Hn. now left.
Qed.

Lemma updateFirst_id {A} (p : A -> bool) (f : A -> A) (l : list A) :
  (forall a, p a = true -> f a = a) -> updateFirst p f l = l.
Proof.
  intros Hf. induction l as [|x l IH]; [reflexivity|].
  simpl. destruct (p x) eqn:E; [now rewrite (Hf x E) | now rewrite IH].
Qed.

(** A loop whose edit changes nothing in the aliases it finds leaves the
    store as it is. *)
Lemma rewriteGroups_inert cur edit ks w :
  (forall a, isSameAlias cur a = true -> edit a = a) ->
  globalState (rewriteGroups (editFirst cur edit) ks w) = globalState w.
Proof.
  intros Hid. revert w. induction ks as [|k ks IH]; intros w; [reflexivity|].
  rewrite rewriteGroups_cons, IH. unfold editFirst, globalState_get.
  destruct (get k (globalState w)) as [l|] eqn:Hg; cbn [normalizeAliasesToArray].
  - destruct (find _ l); [|reflexivity].
    rewrite (updateFirst_id _ _ _ Hid). simpl. now apply setEntry_get_same.
  - reflexivity.
Qed.

Lemma upTo_incl k ks g : In g (upTo k ks) -> In g ks.
Proof.
  induction ks as [|x ks IH]; simpl; [tauto|].
  destruct (x =? k); simpl; tauto.
Qed.

Lemma upTo_NoDup k ks : NoDup ks -> NoDup (upTo k ks).
Proof.
  induction ks as [|x ks IH]; simpl; intros Hnd; [constructor|].
  inversion Hnd as [|? ? Hx Hnd']; subst.
  destruct (x =? k); [repeat constructor; simpl; tauto|].
  constructor; [|now apply IH].
  intros H. apply Hx. eapply upTo_incl; eauto.
Qed.

(** The store after the loop of a rename: the first match of the
    pre-edit identity is edited in the groups reached, and no other group
    changes, when the edit changes nothing in an alias that has the new
    identity already. *)
Lemma renameLoop_store alias slot edit d ks w :
  (forall a, isSameAlias (edit d) a = true -> edit a = a) ->
  NoDup ks ->
  globalState (fst (fold_left (renameStep alias slot edit) ks (w, d)))
  = globalState
      (rewriteGroups (editFirst d edit)
         (reachedKeys alias slot d (globalState w) ks) w).
Proof.
  intros Hid. revert w. induction ks as [|k ks IH]; intros w Hnd.
  - unfold reachedKeys. now destruct (carriedObjectFound _ _ _ _).
  - inversion Hnd as [|? ? Hk Hnd']; subst.
    destruct (string_dec k (group alias)) as [->|Hne].
    + cbn [fold_left]. unfold reachedKeys. cbn [upTo]. rewrite String.eqb_refl.
      unfold renameStep at 2. unfold carriedObjectFound, globalState_get.
      rewrite (find_existsb (isSameAlias d)).
      destruct (find (isSameAlias d) _) as [hit|] eqn:Hfind; cbn [andb].
      * destruct (isDataOf alias slot (group alias) _).
        -- rewrite renameLoop_other by assumption. cbn [fst].
           rewrite (rewriteGroups_inert _ _ _ _ Hid).
           rewrite rewriteGroups_cons. unfold editFirst, globalState_get.
           now rewrite Hfind.
        -- rewrite renameLoop_other by assumption. cbn [fst].
           rewrite rewriteGroups_cons. unfold editFirst, globalState_get.
           now rewrite Hfind.
      * rewrite renameLoop_other by assumption. cbn [fst].
        rewrite rewriteGroups_cons. unfold editFirst, globalState_get.
        now rewrite Hfind.
    + cbn [fold_left]. rewrite (renameStep_other _ _ _ _ _ _ Hne).
      set (w1 := match editFirst d edit _ with Some v => _ | None => w end).
      assert (Hown : get (group alias) (globalState w1) = get (group alias) (globalState w)).
      { subst w1. destruct (editFirst d edit _); [|reflexivity].
        simpl. apply get_setEntry_ne. congruence. }
      rewrite (IH w1 Hnd'). unfold reachedKeys, carriedObjectFound. rewrite Hown.
      destruct (_ && _).
      * cbn [upTo]. apply String.eqb_neq in Hne. rewrite Hne.
        now rewrite rewriteGroups_cons.
      * now rewrite rewriteGroups_cons.
Qed.





Lemma setAliasNameOf_same_identity (n : string) (d a : Alias) :
  isSameAlias (setAliasNameOf n d) a = true -> setAliasNameOf n a = a.
Proof.
  unfold isSameAlias. cbn [setAliasNameOf aliasName command].
  intros H. apply andb_true_iff in H. destruct H as [H _].
  apply String.eqb_eq in H. destruct a. cbn in *. now subst.
Qed.


Lemma renameAliases_found (f : File) (d newAlias : Alias) :
  existsb (lineHasIdentity d) f = true ->
  exists f', renameAliases f d newAlias = inr f'.
Proof. intros H. unfold renameAliases. rewrite (replaceOne_found _ _ _ H). eauto. Qed.

Lemma renameAliasName_store alias slot d name w :
  data alias = Some d -> name <> "" ->
  existsb (lineHasIdentity d) (storeFile w) = true ->
  exists w0,
    globalState w0 = globalState w /\
    globalState (renameAliasName alias slot (Some name) w)
    = globalState
        (fst (fold_left (renameStep alias slot (setAliasNameOf name))
                (keys (globalState w0)) (w0, d))).
Proof.
  intros Hd Hne Hfile. unfold renameAliasName.
  rewrite Hd, (length_eqb_0_false _ Hne).
  destruct (renameAliases_found (storeFile w) d (mkAlias name (command d) None None) Hfile)
    as [f' Hf].
  rewrite Hf. exists (writeStoreFile f' w). split; reflexivity.
Qed.



Lemma renameLoop_keys alias slot edit ks w cur :
  (forall k, In k ks -> In k (keys (globalState w))) ->
  keys (globalState (fst (fold_left (renameStep alias slot edit) ks (w, cur))))
  = keys (globalState w).
Proof.
  revert w cur. induction ks as [|k ks IH]; intros w cur Hsub; [reflexivity|].
  cbn [fold_left]. unfold renameStep at 2.
  assert (Hk : In k (keys (globalState w))) by (apply Hsub; now left).
  destruct (find _ _).
  - rewrite IH; simpl.
    + now apply keys_setEntry_in.
    + intros k' Hk'. rewrite keys_setEntry_in by assumption. apply Hsub. now right.
  - apply IH. intros k' Hk'. apply Hsub. now right.
Qed.

(** The renames keep the keys of the store, whatever their outcome. *)
Lemma renameAliasName_keys alias slot input w :
  keys (globalState (renameAliasName alias slot input w)) = keys (globalState w).
Proof.
  unfold renameAliasName.
  destruct (data alias) as [d|]; [|reflexivity].
  destruct input as [name|]; [|reflexivity].
  destruct (String.length name =? 0)%nat; [reflexivity|].
  destruct (renameAliases _ _ _) as [e|f]; [reflexivity|].
  exact (renameLoop_keys alias slot (setAliasNameOf name) _ (writeStoreFile f w) d
           (fun k H => H)).
Qed.

Lemma renameAliasCommand_keys alias slot input w :
  keys (globalState (renameAliasCommand alias slot input w)) = keys (globalState w).
Proof.
  unfold renameAliasCommand.
  destruct (data alias) as [d|]; [|reflexivity].
  destruct input as [cmd|]; [|reflexivity].
  destruct (String.length cmd =? 0)%nat; [reflexivity|].
  destruct (renameAliases _ _ _) as [e|f]; [reflexivity|].
  exact (renameLoop_keys alias slot (setCommandOf cmd) _ (writeStoreFile f w) d
           (fun k H => H)).
Qed.

Lemma NoDup_sampleStore : NoDup (keys sampleStore).
Proof. repeat constructor; simpl; intuition discriminate. Qed.




(** The rename of [nv], invoked from the system group, on the sample
    store: the copy in [work] is renamed too, [misc] is as before. *)
Example renameAliasName_sample :
  globalState (renameAliasName nvItem None (Some "ver") sampleWorld) =
  [("system", [mkAlias "ver" "node -v" (Some 0%Z) (Some ""); gs]);
   ("work", [gs; mkAlias "ver" "node -v" (Some 0%Z) (Some ""); gp]);
   ("misc", [gp])] /\
  storeFile (renameAliasName nvItem None (Some "ver") sampleWorld) =
  ["# aliases"; "alias ver='node -v'"; "export PATH=/bin"; "alias gs='git status'"].
Proof. split; reflexivity. Qed.

(** The same rename invoked from the item of [work], when the alias found
    in [work] is the object the item carries: [system] and [work] are
    renamed, the loop then compares with the new name and [misc] keeps
    the old one. *)
Example renameAliasName_carried_object_sample :
  globalState (renameAliasName nvWorkItem (Some 0%nat) (Some "ver") sharedWorld) =
  [("system", [mkAlias "ver" "node -v" (Some 0%Z) (Some "")]);
   ("work", [mkAlias "ver" "node -v" (Some 0%Z) (Some "")]);
   ("misc", [nv])].
Proof. reflexivity. Qed.

(* ================================================================== *)
(** ** Running an alias *)

(** C1, as stated, fails: [nv] is run from the system group of the
    sample store; the copy of [nv] in group [work] keeps its counter. *)
Lemma runAlias_other_groups_counterexample : ~ runAlias_increments_in_every_group.
Proof.
  intros H.
  specialize (H nvItem nv sampleWorld "work" [gs; nv; gp] eq_refl eq_refl).
  vm_compute in H. discriminate H.
Qed.

Example runAlias_sample :
  globalState (runAlias nvItem sampleWorld) =
  [("system", [mkAlias "nv" "node -v" (Some 1%Z) (Some ""); gs]);
   ("work", [gs; nv; gp]);
   ("misc", [gp])].
Proof. reflexivity. Qed.

Lemma incrementFrequency_spec (a : Alias) :
  frequency (incrementFrequency a)
  = Some (match frequency a with Some f => f | None => 0 end + 1)%Z /\
  aliasName (incrementFrequency a) = aliasName a /\
  command (incrementFrequency a) = command a /\
  description (incrementFrequency a) = description a.
Proof. repeat split. Qed.

(** C1, amended.  A run increments by 1 the counter of the first alias of
    the invoking group that has the identity of the run alias, a missing
    counter counting as 0, and writes that group back; the other aliases
    of the group, the other groups and the store file are as before.  The
    write to the store precedes the text sent to the terminal.  When the
    invoking group holds no such alias, nothing is written and the text
    is sent all the same. *)
Theorem runAlias_increments_in_invoking_group :
  forall (alias : AliasItem) (d : Alias) (w : World),
    data alias = Some d ->
    let l := normalizeAliasesToArray (get (group alias) (globalState w)) in
    let w' := runAlias alias w in
    storeFile w' = storeFile w /\
    (forall g, g <> group alias -> get g (globalState w') = get g (globalState w)) /\
    (forall a, frequency (incrementFrequency a)
               = Some (match frequency a with Some f => f | None => 0 end + 1)%Z /\
               identity (incrementFrequency a) = identity a /\
               description (incrementFrequency a) = description a) /\
    (existsb (isSameAlias d) l = true ->
     exists l' item',
       firstMatchEdited d incrementFrequency l l' /\
       get (group alias) (globalState w') = Some l' /\
       trace w' = trace w ++ [StateUpdate (group alias) (Some l');
                              TreeDataChanged (Some item');
                              SendText (aliasName d)]) /\
    (existsb (isSameAlias d) l = false ->
     globalState w' = globalState w /\
     trace w' = trace w ++ [SendText (aliasName d)]).
Proof.
  intros alias d w Hd l w'. subst w'. unfold runAlias. rewrite Hd.
  unfold globalState_get. fold l.
  pose proof (find_existsb (isSameAlias d) l) as Hfe.
  destruct (find (isSameAlias d) l) as [hit|] eqn:Hfind.
  - split; [reflexivity|].
    split; [intros g Hne; simpl; now apply get_setEntry_ne|].
    split; [intros a; repeat split|].
    split; [intros _ | intros Hc; rewrite Hfe in Hc; discriminate Hc].
    destruct (updateFirst_split (isSameAlias d) incrementFrequency l Hfe)
      as (pre & a & post & H1 & H2 & H3 & H4).
    eexists. eexists. split; [exists pre, a, post; eauto|].
    split; [simpl; apply get_setEntry_eq|].
    simpl. rewrite <- !app_assoc. reflexivity.
  - split; [reflexivity|].
    split; [reflexivity|].
    split; [intros a; repeat split|].
    split; [intros Hc; rewrite Hfe in Hc; discriminate Hc | intros _; split; reflexivity].
Qed.

Lemma runAlias_increments_in_invoking_group_witness :
  storeFile (runAlias nvItem sampleWorld) = sampleFile /\
  get "work" (globalState (runAlias nvItem sampleWorld)) = Some [gs; nv; gp] /\
  exists l' item',
    firstMatchEdited nv incrementFrequency [nv; gs] l' /\
    get "system" (globalState (runAlias nvItem sampleWorld)) = Some l' /\
    trace (runAlias nvItem sampleWorld) =
    [StateUpdate "system" (Some l'); TreeDataChanged (Some item'); SendText "nv"].
Proof.
  destruct (runAlias_increments_in_invoking_group nvItem nv sampleWorld eq_refl)
    as (Hf & Hother & _ & Hhit & _).
  split; [exact Hf|].
  split; [apply (Hother "work"); discriminate|].
  apply Hhit. reflexivity.
Defined.

(* ================================================================== *)
(** ** Guards: duplicate alias, duplicate group *)

Lemma resolveAlias_needs_text (input : string) (r : Alias) :
  resolveAlias ("alias " ++ input) = Some r -> input <> "".
Proof. intros H ->. discriminate H. Qed.

(** C4.  An add-alias request whose resolved name is the name of an alias
    parsed from the store file is refused with the warning
    [Duplicate alias]: the store file and the whole group store are as
    before, and the warning is the only effect. *)
Theorem addAlias_duplicate_commits_nothing :
  forall (SYSTEM_ALIAS input : string) (r : Alias) (w : World),
    resolveAlias ("alias " ++ input) = Some r ->
    In (aliasName r) (map aliasName (getAliases (storeFile w))) ->
    let w' := addAlias SYSTEM_ALIAS (Some input) w in
    storeFile w' = storeFile w /\
    globalState w' = globalState w /\
    trace w' = trace w ++ [ShowWarningMessage "Duplicate alias"].
Proof.
  intros SYS input r w Hr Hin w'. subst w'. unfold addAlias.
  rewrite (length_eqb_0_false _ (resolveAlias_needs_text _ _ Hr)), Hr.
  apply existsb_eqb_in in Hin. rewrite Hin.
  repeat split.
Qed.

Lemma addAlias_duplicate_commits_nothing_witness :
  storeFile (addAlias "system" (Some "nv='node --version'") sampleWorld) = sampleFile /\
  globalState (addAlias "system" (Some "nv='node --version'") sampleWorld) = sampleStore /\
  trace (addAlias "system" (Some "nv='node --version'") sampleWorld)
  = [ShowWarningMessage "Duplicate alias"].
Proof.
  apply (addAlias_duplicate_commits_nothing "system" "nv='node --version'"
           (mkAlias "nv" "node --version" (Some 0%Z) (Some "")) sampleWorld).
  - reflexivity.
  - simpl. tauto.
Defined.

(** C5.  A new-group or rename-group request whose target name is an
    existing group name is refused with the error [Duplicate group]: the
    group store is exactly as before (no group added, removed, renamed or
    reordered), and so is the store file.  The store is as before also
    when the existing name is the empty text, which is refused as a
    missing name. *)
Theorem duplicate_group_leaves_store_unchanged :
  forall (alias : AliasItem) (name : string) (w : World),
    In name (keys (globalState w)) ->
    (globalState (addNewGroup (Some name) w) = globalState w /\
     storeFile (addNewGroup (Some name) w) = storeFile w /\
     (name <> "" ->
      trace (addNewGroup (Some name) w)
      = trace w ++ [ShowErrorMessage "Duplicate group"])) /\
    (globalState (renameGroup alias (Some name) w) = globalState w /\
     storeFile (renameGroup alias (Some name) w) = storeFile w /\
     (name <> "" ->
      trace (renameGroup alias (Some name) w)
      = trace w ++ [ShowErrorMessage "Duplicate group"])).
Proof.
  intros alias name w Hin.
  unfold addNewGroup, renameGroup.
  apply existsb_eqb_in in Hin. rewrite Hin.
  destruct name as [|c name]; simpl; repeat split; congruence.
Qed.

Lemma duplicate_group_leaves_store_unchanged_witness :
  (globalState (addNewGroup (Some "work") sampleWorld) = sampleStore /\
   storeFile (addNewGroup (Some "work") sampleWorld) = sampleFile /\
   trace (addNewGroup (Some "work") sampleWorld) = [ShowErrorMessage "Duplicate group"]) /\
  (globalState (renameGroup workItem (Some "misc") sampleWorld) = sampleStore /\
   storeFile (renameGroup workItem (Some "misc") sampleWorld) = sampleFile /\
   trace (renameGroup workItem (Some "misc") sampleWorld) = [ShowErrorMessage "Duplicate group"]).
Proof.
  assert (Hw : In "work" (keys (globalState sampleWorld))) by (simpl; tauto).
  assert (Hm : In "misc" (keys (globalState sampleWorld))) by (simpl; tauto).
  destruct (duplicate_group_leaves_store_unchanged workItem "work" sampleWorld Hw)
    as ((A1 & A2 & A3) & _).
  destruct (duplicate_group_leaves_store_unchanged workItem "misc" sampleWorld Hm)
    as (_ & (B1 & B2 & B3)).
  split; (split; [|split]).
  - exact A1.
  - exact A2.
  - apply A3. discriminate.
  - exact B1.
  - exact B2.
  - apply B3. discriminate.
Defined.

(* ================================================================== *)
(** ** Deleting and renaming a group *)

Lemma not_in_existsb_eqb (k : string) (l : list string) :
  ~ In k l -> existsb (String.eqb k) l = false.
Proof.
  intros Hn. destruct (existsb (String.eqb k) l) eqn:E; [|reflexivity].
  apply existsb_eqb_in in E. contradiction.
Qed.

(** C6.  delete-group removes the entry of the group: its name is no
    longer a key, and the other entries and their order are kept.
    rename-group to a name that is not a key moves the whole sequence of
    the group, unchanged, to the new key and removes the old key; the
    other entries are kept. *)
Theorem deleteGroup_removes_renameGroup_moves :
  forall (alias : AliasItem) (name : string) (w : World),
    (let w' := deleteGroup alias w in
     ~ In (group alias) (keys (globalState w')) /\
     get (group alias) (globalState w') = None /\
     keys (globalState w')
     = filter (fun k => negb (k =? group alias)) (keys (globalState w)) /\
     (forall g, g <> group alias -> get g (globalState w') = get g (globalState w))) /\
    (name <> "" ->
     ~ In name (keys (globalState w)) ->
     In (group alias) (keys (globalState w)) ->
     let w' := renameGroup alias (Some name) w in
     (exists l, get (group alias) (globalState w) = Some l /\
                get name (globalState w') = Some l) /\
     ~ In (group alias) (keys (globalState w')) /\
     keys (globalState w')
     = filter (fun k => negb (k =? group alias)) (keys (globalState w)) ++ [name] /\
     (forall g, g <> group alias -> g <> name ->
                get g (globalState w') = get g (globalState w))).
Proof.
  intros alias name w. split.
  - simpl. repeat split.
    + apply removeEntry_notin.
    + apply get_removeEntry_eq.
    + apply keys_removeEntry.
    + intros g Hne. now apply get_removeEntry_ne.
  - intros Hne Hfresh Hold w'. subst w'. unfold renameGroup.
    rewrite (length_eqb_0_false _ Hne), (not_in_existsb_eqb _ _ Hfresh).
    destruct (in_keys_get _ _ Hold) as [l Hl].
    assert (Hdiff : name <> group alias) by (intros ->; contradiction).
    assert (Hfresh' : ~ In name (keys (removeEntry (group alias) (globalState w)))).
    { rewrite keys_removeEntry, filter_In. tauto. }
    unfold globalState_get. rewrite Hl. simpl.
    rewrite (setEntry_notin _ _ _ Hfresh').
    repeat split.
    + exists l. split; [reflexivity|].
      rewrite <- (setEntry_notin _ _ _ Hfresh'). apply get_setEntry_eq.
    + unfold keys. rewrite map_app, in_app_iff. simpl. intros [H|[H|[]]].
      * exact (removeEntry_notin _ _ H).
      * congruence.
    + unfold keys at 1. rewrite map_app. simpl. f_equal. apply keys_removeEntry.
    + intros g Hg1 Hg2. rewrite <- (setEntry_notin _ _ _ Hfresh').
      rewrite get_setEntry_ne by assumption. now apply get_removeEntry_ne.
Qed.

Lemma deleteGroup_removes_renameGroup_moves_witness :
  (exists l, get "work" sampleStore = Some l /\
             get "job" (globalState (renameGroup workItem (Some "job") sampleWorld)) = Some l) /\
  ~ In "work" (keys (globalState (renameGroup workItem (Some "job") sampleWorld))) /\
  keys (globalState (renameGroup workItem (Some "job") sampleWorld))
  = ["system"; "misc"; "job"].
Proof.
  destruct (deleteGroup_removes_renameGroup_moves workItem "job" sampleWorld)
    as [_ H].
  destruct H as (H1 & H2 & H3 & _).
  - discriminate.
  - simpl. intuition discriminate.
  - simpl. tauto.
  - split; [exact H1 | split; [exact H2 | exact H3]].
Defined.

Example deleteGroup_sample :
  globalState (deleteGroup workItem sampleWorld) = [("system", [nv; gs]); ("misc", [gp])].
Proof. reflexivity. Qed.

(* ================================================================== *)
(** ** Adding an alias to a group *)

Lemma candidateGroups_spec (SYSTEM_ALIAS : string) (alias : AliasItem) (w : World) (k : string) :
  In k (candidateGroups SYSTEM_ALIAS alias w) <->
  In k (keys (globalState w)) /\ k <> SYSTEM_ALIAS /\ k <> group alias.
Proof.
  unfold candidateGroups. rewrite filter_In. simpl.
  rewrite orb_false_r, negb_true_iff, orb_false_iff, !String.eqb_neq. tauto.
Qed.

(** C7.  The groups offered by add-to-group are exactly the keys of the
    store other than the system group and the group of the alias.  When
    there is none, the request is refused with the warning
    [No any group can be added] and nothing is written.  When one is
    picked, the alias is appended, as it is, once, to the sequence of
    that group; the other groups and the store file are as before. *)
Theorem addToGroup_candidates_and_append :
  forall (SYSTEM_ALIAS : string) (alias : AliasItem) (d : Alias) (w : World),
    data alias = Some d ->
    (forall k, In k (candidateGroups SYSTEM_ALIAS alias w) <->
               In k (keys (globalState w)) /\ k <> SYSTEM_ALIAS /\ k <> group alias) /\
    (candidateGroups SYSTEM_ALIAS alias w = [] ->
     forall pick,
       let w' := addToGroup SYSTEM_ALIAS alias pick w in
       globalState w' = globalState w /\ storeFile w' = storeFile w /\
       trace w' = trace w ++ [ShowWarningMessage "No any group can be added"]) /\
    (forall i target,
       nth_error (candidateGroups SYSTEM_ALIAS alias w) i = Some target ->
       let w' := addToGroup SYSTEM_ALIAS alias (Some i) w in
       (exists l, get target (globalState w) = Some l /\
                  get target (globalState w') = Some (l ++ [d])) /\
       (forall g, g <> target -> get g (globalState w') = get g (globalState w)) /\
       keys (globalState w') = keys (globalState w) /\
       storeFile w' = storeFile w).
Proof.
  intros SYS alias d w Hd. split; [|split].
  - intros k. apply candidateGroups_spec.
  - intros Hnil pick w'. subst w'. unfold addToGroup. rewrite Hd, Hnil. simpl.
    repeat split.
  - intros i target Hnth w'. subst w'. unfold addToGroup. rewrite Hd, Hnth.
    assert (Hin : In target (candidateGroups SYS alias w)) by (eapply nth_error_In; eauto).
    destruct (candidateGroups SYS alias w) as [|c cs] eqn:Hc; [destruct Hin|].
    rewrite <- Hc in Hin. apply candidateGroups_spec in Hin. destruct Hin as (Hk & _ & _).
    destruct (in_keys_get _ _ Hk) as [l Hl].
    unfold globalState_get. rewrite Hl. simpl.
    repeat split.
    + exists l. split; [reflexivity | apply get_setEntry_eq].
    + intros g Hne. now apply get_setEntry_ne.
    + now apply keys_setEntry_in.
Qed.

Lemma addToGroup_candidates_and_append_witness :
  candidateGroups "system" nvItem sampleWorld = ["work"; "misc"] /\
  (exists l, get "misc" sampleStore = Some l /\
             get "misc" (globalState (addToGroup "system" nvItem (Some 1%nat) sampleWorld))
             = Some (l ++ [nv])) /\
  storeFile (addToGroup "system" nvItem (Some 1%nat) sampleWorld) = sampleFile.
Proof.
  destruct (addToGroup_candidates_and_append "system" nvItem nv sampleWorld eq_refl)
    as (_ & _ & H).
  destruct (H 1%nat "misc" eq_refl) as (H1 & _ & _ & H4).
  split; [reflexivity | split; [exact H1 | exact H4]].
Defined.

Example addToGroup_no_candidate :
  let w := mkWorld [("system", [nv]); ("work", [nv])] sampleFile [] in
  let item := newAliasItem "nv = 'node -v'" (Some nv) "work" "" [] true in
  addToGroup "system" item (Some 0%nat) w
  = mkWorld [("system", [nv]); ("work", [nv])] sampleFile
            [ShowWarningMessage "No any group can be added"].
Proof. reflexivity. Qed.

(* ================================================================== *)
(** ** Deleting every alias *)

Lemma rewriteGroups_const_get (v : list Alias) ks w g :
  In g ks ->
  get g (globalState (rewriteGroups (fun _ => Some v) ks w)) = Some v.
Proof.
  revert w. induction ks as [|k ks IH]; intros w Hin; [destruct Hin|].
  rewrite rewriteGroups_cons.
  destruct (in_dec string_dec g ks) as [Hg|Hg].
  - now apply IH.
  - destruct Hin as [->|Hin]; [|contradiction].
    rewrite rewriteGroups_get_notin by assumption.
    simpl. apply get_setEntry_eq.
Qed.

Lemma isEmpty_false_iff {A} (l : list A) : isEmpty l = false <-> l <> [].
Proof. destruct l; simpl; split; congruence. Qed.

(** C10.  A confirmed delete-all-aliases on a store file with at least
    one alias line sets every key of the group store, the system group
    and every user group alike, to the empty sequence, whatever the
    groups held, and removes the alias lines of the file.  On a store
    file with no alias line it changes nothing at all: the user groups
    keep what they hold. *)
Theorem deleteAllAlias_clears_every_group_or_nothing :
  forall (text : string) (w : World),
    (getAliases (storeFile w) <> [] ->
     let w' := deleteAllAlias (Some text) w in
     keys (globalState w') = keys (globalState w) /\
     (forall g, In g (keys (globalState w)) -> get g (globalState w') = Some []) /\
     storeFile w' = deleteAliases (storeFile w) None) /\
    (getAliases (storeFile w) = [] -> deleteAllAlias (Some text) w = w).
Proof.
  intros text w. split.
  - intros Hne w'. subst w'. unfold deleteAllAlias.
    apply isEmpty_false_iff in Hne. rewrite Hne.
    set (w2 := writeStoreFile _ _).
    change (fold_left _ (keys (globalState w2)) w2)
      with (rewriteGroups (fun _ => Some []) (keys (globalState w2)) w2).
    split; [|split].
    + exact (rewriteGroups_keys _ _ w2 (fun k H => H)).
    + intros g Hg. exact (rewriteGroups_const_get [] _ w2 g Hg).
    + exact (rewriteGroups_storeFile _ _ w2).
  - intros Hnil. unfold deleteAllAlias. now rewrite Hnil.
Qed.

Lemma deleteAllAlias_clears_every_group_or_nothing_witness :
  globalState (deleteAllAlias (Some "Confirm") sampleWorld)
  = [("system", []); ("work", []); ("misc", [])] /\
  get "misc" (globalState (deleteAllAlias (Some "Confirm") sampleWorld)) = Some [] /\
  storeFile (deleteAllAlias (Some "Confirm") sampleWorld)
  = ["# aliases"; "export PATH=/bin"] /\
  deleteAllAlias (Some "Confirm") (mkWorld sampleStore ["# aliases"] [])
  = mkWorld sampleStore ["# aliases"] [].
Proof.
  destruct (deleteAllAlias_clears_every_group_or_nothing "Confirm" sampleWorld)
    as [H _].
  destruct (deleteAllAlias_clears_every_group_or_nothing "Confirm"
              (mkWorld sampleStore ["# aliases"] [])) as [_ H0].
  destruct H as (_ & H2 & H3); [discriminate|].
  split; [reflexivity|].
  split; [apply H2; simpl; tauto|].
  split; [exact H3 | apply H0; reflexivity].
Defined.

(* ================================================================== *)
(** ** Sorting *)

Section StableSort.

Context {A : Type}.
Variable cmp : A -> A -> Z.

Lemma insertSorted_perm (x : A) (l : list A) : Permutation (x :: l) (insertSorted cmp x l).
Proof.
  induction l as [|y l IH]; simpl; [reflexivity|].
  destruct (0 <? cmp x y)%Z; [|reflexivity].
  rewrite perm_swap. now apply perm_skip.
Qed.

Lemma sortArray_perm (l : list A) : Permutation l (sortArray cmp l).
Proof.
  induction l as [|x l IH]; simpl; [reflexivity|].
  rewrite <- insertSorted_perm. now apply perm_skip.
Qed.

Hypothesis cmp_consistent : consistentComparator cmp.

Lemma cmp_flip (a b : A) : (0 < cmp a b)%Z -> (cmp b a <= 0)%Z.
Proof. intros H. apply (proj1 cmp_consistent) in H. lia. Qed.

Lemma cmp_zero_sym (a b : A) : cmp a b = 0%Z -> (cmp b a <= 0)%Z.
Proof.
  intros H. destruct (Z_lt_le_dec 0 (cmp b a)) as [Hlt|Hle]; [|exact Hle].
  apply (proj1 cmp_consistent) in Hlt. lia.
Qed.

Lemma insertSorted_sorted (x : A) (l : list A) :
  StronglySorted (fun a b => (cmp a b <= 0)%Z) l ->
  StronglySorted (fun a b => (cmp a b <= 0)%Z) (insertSorted cmp x l).
Proof.
  induction l as [|y l IH]; simpl; intros Hs.
  - repeat constructor.
  - inversion Hs as [|? ? Hs' Hall]; subst.
    destruct (0 <? cmp x y)%Z eqn:E.
    + apply Z.ltb_lt in E. constructor; [now apply IH|].
      apply (Permutation_Forall (insertSorted_perm x l)).
      constructor; [now apply cmp_flip | assumption].
    + apply Z.ltb_ge in E. constructor; [assumption|].
      constructor; [assumption|].
      eapply Forall_impl; [|exact Hall].
      intros z Hz. exact (proj2 cmp_consistent x y z E Hz).
Qed.

Lemma sortArray_sorted (l : list A) :
  StronglySorted (fun a b => (cmp a b <= 0)%Z) (sortArray cmp l).
Proof.
  induction l as [|x l IH]; simpl; [constructor | now apply insertSorted_sorted].
Qed.

Lemma insertSorted_filter (z x : A) (l : list A) :
  filter (fun y => (cmp z y =? 0)%Z) (insertSorted cmp x l)
  = filter (fun y => (cmp z y =? 0)%Z) (x :: l).
Proof.
  induction l as [|y l IH]; [reflexivity|].
  cbn [insertSorted]. destruct (0 <? cmp x y)%Z eqn:E; [|reflexivity].
  apply Z.ltb_lt in E.
  cbn [filter] in *. rewrite IH.
  destruct (cmp z x =? 0)%Z eqn:Ex; destruct (cmp z y =? 0)%Z eqn:Ey; try reflexivity.
  apply Z.eqb_eq in Ex, Ey. exfalso.
  pose proof (cmp_zero_sym _ _ Ex) as Hxz.
  pose proof (proj2 cmp_consistent x z y Hxz) as Ht. lia.
Qed.

Lemma sortArray_filter (z : A) (l : list A) :
  filter (fun y => (cmp z y =? 0)%Z) (sortArray cmp l)
  = filter (fun y => (cmp z y =? 0)%Z) l.
Proof.
  induction l as [|x l IH]; [reflexivity|].
  cbn [sortArray]. rewrite insertSorted_filter. cbn [filter]. now rewrite IH.
Qed.

(** [sortArray] is a stable sort. *)
Lemma sortArray_stableSortOf (l : list A) : stableSortOf cmp l (sortArray cmp l).
Proof.
  split; [apply sortArray_perm|].
  split; [apply sortArray_sorted | intros x; apply sortArray_filter].
Qed.

Lemma cmp_refl (a : A) : cmp a a = 0%Z.
Proof.
  pose proof (proj1 cmp_consistent a a) as H.
  destruct (Z.lt_trichotomy (cmp a a) 0) as [Hl|[He|Hg]]; [|exact He|].
  - apply H in Hl. lia.
  - apply H in Hg. lia.
Qed.

(** A list has one stable sort only, so the engine's sorting algorithm
    does not show in the result. *)
Lemma stableSortOf_unique (l l1 l2 : list A) :
  stableSortOf cmp l l1 -> stableSortOf cmp l l2 -> l1 = l2.
Proof.
  intros (P1 & S1 & F1) (P2 & S2 & F2).
  assert (P : Permutation l1 l2) by (now rewrite <- P1).
  assert (F : forall x, filter (fun y => (cmp x y =? 0)%Z) l1
                        = filter (fun y => (cmp x y =? 0)%Z) l2)
    by (intros x; now rewrite F1, F2).
  clear P1 P2 F1 F2 l. revert l2 S2 P F.
  induction l1 as [|a t1 IH]; intros l2 S2 P F.
  - apply Permutation_nil in P. now subst.
  - destruct l2 as [|b t2]; [apply Permutation_sym, Permutation_nil in P; discriminate|].
    inversion S1 as [|? ? S1' A1]; inversion S2 as [|? ? S2' A2]; subst.
    assert (Hab : (cmp a b <= 0)%Z).
    { assert (Hin : In b (a :: t1)) by (eapply Permutation_in; [apply Permutation_sym, P | now left]).
      destruct Hin as [->|Hin]; [rewrite cmp_refl; lia|].
      rewrite Forall_forall in A1. now apply A1. }
    assert (Hba : (cmp b a <= 0)%Z).
    { assert (Hin : In a (b :: t2)) by (eapply Permutation_in; [apply P | now left]).
      destruct Hin as [->|Hin]; [rewrite cmp_refl; lia|].
      rewrite Forall_forall in A2. now apply A2. }
    assert (Hz : cmp a b = 0%Z).
    { destruct (Z_lt_le_dec 0 (cmp b a)) as [Hlt|Hle]; [lia|].
      destruct (Z.eq_dec (cmp a b) 0) as [He|Hn]; [exact He|].
      assert (Hlt : (cmp a b < 0)%Z) by lia.
      apply (proj1 cmp_consistent) in Hlt. lia. }
    pose proof (F a) as Fa. cbn [filter] in Fa.
    rewrite cmp_refl, Hz in Fa. simpl in Fa. injection Fa as Heq _. subst b.
    f_equal. apply IH; trivial.
    + eapply Permutation_cons_inv; exact P.
    + intros x. specialize (F x). cbn [filter] in F.
      destruct (cmp x a =? 0)%Z; [now injection F | exact F].
Qed.

End StableSort.

Lemma compareFrequency_consistent : consistentComparator compareFrequency.
Proof. unfold compareFrequency. split; intros; lia. Qed.

Lemma compareAlphabet_consistent (localeCompare : string -> string -> Z) :
  consistentComparator localeCompare ->
  consistentComparator (compareAlphabet localeCompare).
Proof.
  intros [H1 H2]. unfold compareAlphabet. split.
  - intros a b. apply H1.
  - intros a b c. apply H2.
Qed.

Lemma string_compare_trans (a b c : string) :
  String.compare a b <> Gt -> String.compare b c <> Gt -> String.compare a c <> Gt.
Proof.
  revert b c. induction a as [|x a IH]; intros [|y b] [|z c]; simpl; try congruence.
  destruct (Ascii.compare x y) eqn:Exy; try congruence;
    destruct (Ascii.compare y z) eqn:Eyz; try congruence.
  - apply Ascii.compare_eq_iff in Exy, Eyz. subst.
    replace (Ascii.compare z z) with Eq; [apply IH|].
    unfold Ascii.compare. now rewrite N.compare_refl.
  - apply Ascii.compare_eq_iff in Exy. subst. rewrite Eyz. congruence.
  - apply Ascii.compare_eq_iff in Eyz. subst. rewrite Exy. congruence.
  - unfold Ascii.compare in *. rewrite N.compare_lt_iff in Exy, Eyz.
    replace (N_of_ascii x ?= N_of_ascii z)%N with Lt; [congruence|].
    symmetry. apply N.compare_lt_iff. lia.
Qed.

Lemma codeUnitCompare_consistent : consistentComparator codeUnitCompare.
Proof.
  unfold codeUnitCompare. split.
  - intros a b. rewrite (String.compare_antisym b a).
    destruct (String.compare a b); simpl; lia.
  - intros a b c Hab Hbc.
    pose proof (string_compare_trans a b c) as H.
    destruct (String.compare a b); destruct (String.compare b c);
      destruct (String.compare a c); try lia; exfalso; apply H; congruence.
Qed.

Lemma sortArray_nonempty {A} (cmp : A -> A -> Z) (l : list A) :
  l <> [] -> sortArray cmp l <> [].
Proof.
  intros Hne Hs. apply Hne. apply Permutation_nil.
  rewrite <- Hs. apply Permutation_sym, sortArray_perm.
Qed.

(** Both sort commands write [sortArray] of the group and nothing else. *)
Lemma sort_command_effect (cmp : Alias -> Alias -> Z) (alias : AliasItem) (w w' : World) :
  w' = (let aliases := normalizeAliasesToArray (globalState_get (group alias) w) in
        if isEmpty aliases then w
        else refresh None
               (globalState_update (group alias) (Some (sortArray cmp aliases)) w)) ->
  normalizeAliasesToArray (get (group alias) (globalState w'))
  = sortArray cmp (normalizeAliasesToArray (get (group alias) (globalState w))) /\
  (forall g, g <> group alias -> get g (globalState w') = get g (globalState w)) /\
  keys (globalState w') = keys (globalState w) /\
  storeFile w' = storeFile w.
Proof.
  intros ->. unfold globalState_get.
  destruct (get (group alias) (globalState w)) as [l|] eqn:Hg; simpl.
  - destruct l as [|a l]; simpl.
    + rewrite Hg. repeat split.
    + rewrite get_setEntry_eq. repeat split.
      * intros g Hne. now apply get_setEntry_ne.
      * apply keys_setEntry_in. eapply get_in_keys; eassumption.
  - rewrite Hg. repeat split.
Qed.

Lemma allCodeUnits_complete (c : ascii) : In c (map ascii_of_nat (seq 0 256)).
Proof.
  apply in_map_iff. exists (nat_of_ascii c). split; [apply ascii_nat_embedding|].
  apply in_seq. pose proof (nat_ascii_bounded c). lia.
Qed.

Lemma sameLetter_lower (a b : ascii) :
  sameLetter a b = true -> lowerCodeUnit a = lowerCodeUnit b.
Proof.
  assert (Hall : forallb (fun x => forallb (fun y =>
              implb (sameLetter x y) (Ascii.eqb (lowerCodeUnit x) (lowerCodeUnit y)))
              (map ascii_of_nat (seq 0 256))) (map ascii_of_nat (seq 0 256)) = true)
    by (vm_compute; reflexivity).
  rewrite forallb_forall in Hall. specialize (Hall a (allCodeUnits_complete a)).
  rewrite forallb_forall in Hall. specialize (Hall b (allCodeUnits_complete b)).
  intros H. rewrite H in Hall. now apply Ascii.eqb_eq.
Qed.

Lemma equalIgnoringCase_lower (s t : string) :
  equalIgnoringCase s t = true -> toLowerCase s = toLowerCase t.
Proof.
  revert t. induction s as [|a s IH]; intros [|b t]; simpl; try discriminate; [reflexivity|].
  intros H. apply andb_true_iff in H. destruct H as [Hl Hr].
  now rewrite (sameLetter_lower _ _ Hl), (IH _ Hr).
Qed.

Lemma codeUnitCompare_ordersByCodeUnits : ordersByCodeUnits codeUnitCompare.
Proof.
  intros x y. unfold codeUnitCompare, String.leb.
  destruct (String.compare x y); split; intros H; try reflexivity; try lia; discriminate.
Qed.

Lemma underscoreFirstCompare_consistent : consistentComparator underscoreFirstCompare.
Proof.
  destruct codeUnitCompare_consistent as [H1 H2]. split.
  - intros a b. apply H1.
  - intros a b c. apply H2.
Qed.

Lemma StronglySorted_weaken {A} (R S : A -> A -> Prop) (l : list A) :
  (forall a b, R a b -> S a b) -> StronglySorted R l -> StronglySorted S l.
Proof.
  intros H Hs. induction Hs as [|a l Hs IH Hall]; constructor; [exact IH|].
  eapply Forall_impl; [|exact Hall]. intros b. apply H.
Qed.

(** C8, as stated, fails: under a collation that ranks the underscore
    before the digits, the alphabetic sort puts [g_s] before [g1], which
    is not the order of their code units. *)
Lemma sortByAlphabet_collation_counterexample : ~ alphabetic_sort_is_by_code_units.
Proof.
  intros H.
  specialize (H underscoreFirstCompare (groupNode "system") mixedWorld
                underscoreFirstCompare_consistent).
  vm_compute in H.
  inversion H as [|? ? _ Hall]. inversion Hall as [|? ? Hle _]. discriminate Hle.
Qed.

Example sortByAlphabet_collation_sample :
  globalState (sortByAlphabet underscoreFirstCompare (groupNode "system") mixedWorld)
  = [("system", [mkAlias "g_s" "git status" None None;
                 mkAlias "g1" "git log -1" None None])].
Proof. reflexivity. Qed.

(** C8, amended.  [sortByAlphabet] and [sortByFrequency] each rewrite the
    sequence of one group, the group of the item, with a rearrangement of
    the same aliases, and leave the other groups, the keys and the store
    file as they are.  The alphabetic sort orders by the collation of the
    host ([localeCompare]) applied to the lower-cased names: names that
    differ in the case of their letters only compare equal, and the order
    is the order of the code units of the lower-cased names where the
    collation of the host is that order.  The frequency sort orders
    ascending by frequency, a missing frequency counting as 0.  Both are
    stable: aliases that compare equal keep their order.  Sorting
    [("b",2); ("a",2); ("c",1)] by frequency gives
    [("c",1); ("b",2); ("a",2)]; sorting the names [b; C; A; B]
    alphabetically by code units gives [A; b; B; C]. *)
Theorem sort_commands_are_stable_sorts_of_one_group :
  forall (localeCompare : string -> string -> Z) (alias : AliasItem) (w : World),
    consistentComparator localeCompare ->
    let l := normalizeAliasesToArray (get (group alias) (globalState w)) in
    (let w' := sortByAlphabet localeCompare alias w in
     let l' := normalizeAliasesToArray (get (group alias) (globalState w')) in
     stableSortOf
       (fun a b => localeCompare (toLowerCase (aliasName a)) (toLowerCase (aliasName b)))
       l l' /\
     (forall a b, equalIgnoringCase (aliasName a) (aliasName b) = true ->
        localeCompare (toLowerCase (aliasName a)) (toLowerCase (aliasName b)) = 0%Z) /\
     (ordersByCodeUnits localeCompare ->
      StronglySorted
        (fun a b =>
           String.leb (toLowerCase (aliasName a)) (toLowerCase (aliasName b)) = true) l') /\
     (forall g, g <> group alias -> get g (globalState w') = get g (globalState w)) /\
     keys (globalState w') = keys (globalState w) /\
     storeFile w' = storeFile w) /\
    (let w' := sortByFrequency alias w in
     stableSortOf (fun a b => (frequencyOrZero a - frequencyOrZero b)%Z)
       l (normalizeAliasesToArray (get (group alias) (globalState w'))) /\
     (forall g, g <> group alias -> get g (globalState w') = get g (globalState w)) /\
     keys (globalState w') = keys (globalState w) /\
     storeFile w' = storeFile w) /\
    sortArray compareFrequency
      [mkAlias "b" "x" (Some 2%Z) None; mkAlias "a" "y" (Some 2%Z) None;
       mkAlias "c" "z" (Some 1%Z) None]
    = [mkAlias "c" "z" (Some 1%Z) None; mkAlias "b" "x" (Some 2%Z) None;
       mkAlias "a" "y" (Some 2%Z) None] /\
    map aliasName
      (normalizeAliasesToArray
         (get "work" (globalState (sortByAlphabet codeUnitCompare (groupNode "work")
                                     caseWorld))))
    = ["A"; "b"; "B"; "C"].
Proof.
  intros localeCompare alias w Hc l.
  split; [|split; [|split; reflexivity]].
  - intros w' l'. subst l'.
    destruct (sort_command_effect (compareAlphabet localeCompare) alias w w' eq_refl)
      as (H1 & H2 & H3 & H4).
    pose proof (sortArray_stableSortOf (compareAlphabet localeCompare)
                  (compareAlphabet_consistent _ Hc) l) as Hs.
    rewrite H1. split; [exact Hs|]. split; [|split; [|now repeat split]].
    + intros a b Heq. rewrite (equalIgnoringCase_lower _ _ Heq).
      apply (cmp_refl localeCompare Hc).
    + intros Ho. destruct Hs as (_ & Hsorted & _).
      eapply StronglySorted_weaken; [|exact Hsorted].
      intros a b Hab. apply Ho. exact Hab.
  - intros w'.
    destruct (sort_command_effect compareFrequency alias w w' eq_refl)
      as (H1 & H2 & H3 & H4).
    rewrite H1. split; [|now repeat split].
    exact (sortArray_stableSortOf compareFrequency compareFrequency_consistent l).
Qed.

Lemma sort_commands_are_stable_sorts_of_one_group_witness :
  stableSortOf
    (fun a b => codeUnitCompare (toLowerCase (aliasName a)) (toLowerCase (aliasName b)))
    (normalizeAliasesToArray (get "work" caseStore))
    (normalizeAliasesToArray
       (get "work" (globalState (sortByAlphabet codeUnitCompare (groupNode "work")
                                   caseWorld)))) /\
  StronglySorted
    (fun a b => String.leb (toLowerCase (aliasName a)) (toLowerCase (aliasName b)) = true)
    (normalizeAliasesToArray
       (get "work" (globalState (sortByAlphabet codeUnitCompare (groupNode "work")
                                   caseWorld)))) /\
  codeUnitCompare (toLowerCase "B") (toLowerCase "b") = 0%Z /\
  stableSortOf (fun a b => (frequencyOrZero a - frequencyOrZero b)%Z)
    [gs; nv; gp]
    (normalizeAliasesToArray
       (get "work" (globalState (sortByFrequency workItem sampleWorld)))) /\
  get "misc" (globalState (sortByFrequency workItem sampleWorld)) = Some [gp].
Proof.
  destruct (sort_commands_are_stable_sorts_of_one_group
              codeUnitCompare (groupNode "work") caseWorld codeUnitCompare_consistent)
    as ((Ha & Hcase & Hlex & _) & _).
  destruct (sort_commands_are_stable_sorts_of_one_group
              codeUnitCompare workItem sampleWorld codeUnitCompare_consistent)
    as (_ & (Hf & Hother & _) & _).
  split; [exact Ha|].
  split; [exact (Hlex codeUnitCompare_ordersByCodeUnits)|].
  split; [exact (Hcase (mkAlias "B" "4" None None) (mkAlias "b" "1" None None) eq_refl)|].
  split; [exact Hf|].
  apply (Hother "misc"). discriminate.
Defined.

Example sortByAlphabet_sample :
  globalState (sortByAlphabet codeUnitCompare workItem sampleWorld)
  = [("system", [nv; gs]); ("work", [gp; gs; nv]); ("misc", [gp])].
Proof. reflexivity. Qed.

Example sortByAlphabet_ignores_case :
  map aliasName
    (sortArray (compareAlphabet codeUnitCompare)
       [mkAlias "b" "1" None None; mkAlias "C" "2" None None;
        mkAlias "A" "3" None None; mkAlias "B" "4" None None])
  = ["A"; "b"; "B"; "C"].
Proof. reflexivity. Qed.

Example sortByFrequency_sample :
  globalState (sortByFrequency workItem sampleWorld)
  = [("system", [nv; gs]); ("work", [nv; gp; gs]); ("misc", [gp])].
Proof. reflexivity. Qed.

(* ================================================================== *)
(** ** The store writer: replacing one line *)

(** C9.  When some line of the file parses to an alias of the old
    identity, [replaceOne] returns the file with the text of the first
    such line replaced by the new statement: the line keeps its position,
    the number of lines is the same, and every other line is the same
    text at the same position.  When no line does, it fails with
    [AliasNotFound], and so does the rename: no file is written. *)
Theorem replaceOne_changes_only_first_matching_line :
  forall (f : File) (old newAlias : Alias) (stmt : string),
    (existsb (lineHasIdentity old) f = true ->
     exists pre line post,
       f = pre ++ line :: post /\
       lineHasIdentity old line = true /\
       (forall x, In x pre -> lineHasIdentity old x = false) /\
       replaceOne f old stmt = inr (pre ++ stmt :: post) /\
       List.length (pre ++ stmt :: post) = List.length f /\
       nth_error (pre ++ stmt :: post) (List.length pre) = Some stmt /\
       (forall i, i <> List.length pre ->
                  nth_error (pre ++ stmt :: post) i = nth_error f i)) /\
    (existsb (lineHasIdentity old) f = false ->
     replaceOne f old stmt = inl AliasNotFound /\
     renameAliases f old newAlias = inl AliasNotFound).
Proof.
  intros f old newAlias stmt. split.
  - intros Hex.
    destruct (updateFirst_split (lineHasIdentity old) (fun _ => stmt) f Hex)
      as (pre & line & post & Hf & Hline & Hpre & Hup).
    exists pre, line, post.
    rewrite (replaceOne_found _ _ _ Hex), Hup.
    repeat split; trivial.
    + subst f. rewrite !length_app. reflexivity.
    + rewrite nth_error_app2 by lia. now rewrite Nat.sub_diag.
    + intros i Hi. subst f.
      destruct (Nat.lt_ge_cases i (List.length pre)) as [Hlt|Hge].
      * now rewrite !nth_error_app1 by assumption.
      * rewrite !nth_error_app2 by assumption.
        destruct (i - List.length pre)%nat as [|n] eqn:E; [lia | reflexivity].
  - intros Hex. unfold renameAliases.
    rewrite !(replaceOne_not_found _ _ _ Hex). split; reflexivity.
Qed.

Lemma replaceOne_changes_only_first_matching_line_witness :
  (exists pre line post,
     sampleFile = pre ++ line :: post /\
     lineHasIdentity gs line = true /\
     (forall x, In x pre -> lineHasIdentity gs x = false) /\
     replaceOne sampleFile gs "alias st='git status'"
     = inr (pre ++ "alias st='git status'" :: post) /\
     List.length (pre ++ "alias st='git status'" :: post) = List.length sampleFile /\
     nth_error (pre ++ "alias st='git status'" :: post) (List.length pre)
     = Some "alias st='git status'" /\
     (forall i, i <> List.length pre ->
                nth_error (pre ++ "alias st='git status'" :: post) i
                = nth_error sampleFile i)) /\
  replaceOne sampleFile gp "alias gp='git pull'" = inl AliasNotFound /\
  renameAliases sampleFile gp nv = inl AliasNotFound.
Proof.
  split.
  - apply (replaceOne_changes_only_first_matching_line sampleFile gs gs
             "alias st='git status'").
    reflexivity.
  - apply (replaceOne_changes_only_first_matching_line sampleFile gp nv
             "alias gp='git pull'").
    reflexivity.
Defined.

Example replaceOne_sample :
  replaceOne sampleFile gs "alias st='git status'"
  = inr ["# aliases"; "alias nv='node -v'"; "export PATH=/bin"; "alias st='git status'"].
Proof. reflexivity. Qed.

Example replaceOne_first_of_two :
  replaceOne ["alias a='x'"; "echo"; "alias a='x'"] (mkAlias "a" "x" None None) "alias b='x'"
  = inr ["alias b='x'"; "echo"; "alias a='x'"].
Proof. reflexivity. Qed.

(* ================================================================== *)
(** ** Who writes the system group *)

Lemma map_identity_updateFirst (p : Alias -> bool) (f : Alias -> Alias) (l : list Alias) :
  (forall a, identity (f a) = identity a) ->
  map identity (updateFirst p f l) = map identity l.
Proof.
  intros Hf. induction l as [|x l IH]; simpl; [reflexivity|].
  destruct (p x); simpl; [now rewrite Hf | now rewrite IH].
Qed.

Lemma getAliases_app (f g : File) : getAliases (f ++ g) = getAliases f ++ getAliases g.
Proof.
  induction f as [|line f IH]; simpl; [reflexivity|].
  destruct (resolveAlias line); simpl; now rewrite IH.
Qed.

Lemma membership_of_get (SYSTEM_ALIAS : string) (w w' : World) :
  get SYSTEM_ALIAS (globalState w') = get SYSTEM_ALIAS (globalState w) ->
  Permutation (systemMembership SYSTEM_ALIAS w') (systemMembership SYSTEM_ALIAS w).
Proof. unfold systemMembership. now intros ->. Qed.

Lemma setDescription_membership SYSTEM_ALIAS alias input w :
  In SYSTEM_ALIAS (keys (globalState w)) ->
  NoDup (keys (globalState w)) ->
  systemMembership SYSTEM_ALIAS (setDescription alias input w)
  = systemMembership SYSTEM_ALIAS w.
Proof.
  intros Hin Hnd.
  destruct (data alias) as [d|] eqn:Hd; [|unfold setDescription; now rewrite Hd].
  destruct input as [text|]; [|unfold setDescription; now rewrite Hd].
  rewrite (setDescription_unfold _ _ _ _ Hd). unfold systemMembership.
  change (globalState (refresh None ?x)) with (globalState x).
  rewrite (rewriteGroups_get_in _ _ _ _ Hnd Hin).
  unfold editFirst.
  destruct (find (isSameAlias d) _); [|reflexivity].
  simpl. now apply map_identity_updateFirst.
Qed.

Lemma runAlias_membership SYSTEM_ALIAS alias w :
  systemMembership SYSTEM_ALIAS (runAlias alias w) = systemMembership SYSTEM_ALIAS w.
Proof.
  unfold runAlias, systemMembership, globalState_get.
  destruct (data alias) as [d|]; [|reflexivity].
  destruct (find (isSameAlias d) _); [|reflexivity].
  simpl. destruct (string_dec SYSTEM_ALIAS (group alias)) as [->|Hne].
  - rewrite get_setEntry_eq. simpl. now apply map_identity_updateFirst.
  - now rewrite get_setEntry_ne.
Qed.

Lemma sort_membership (cmp : Alias -> Alias -> Z) SYSTEM_ALIAS alias w w' :
  w' = (let aliases := normalizeAliasesToArray (globalState_get (group alias) w) in
        if isEmpty aliases then w
        else refresh None
               (globalState_update (group alias) (Some (sortArray cmp aliases)) w)) ->
  Permutation (systemMembership SYSTEM_ALIAS w') (systemMembership SYSTEM_ALIAS w).
Proof.
  intros Hw. destruct (sort_command_effect cmp alias w w' Hw) as (H1 & H2 & _).
  destruct (string_dec SYSTEM_ALIAS (group alias)) as [->|Hne].
  - unfold systemMembership. rewrite H1.
    apply Permutation_map, Permutation_sym, sortArray_perm.
  - apply membership_of_get. now apply H2.
Qed.

Lemma addToGroup_membership SYSTEM_ALIAS alias pick w :
  get SYSTEM_ALIAS (globalState (addToGroup SYSTEM_ALIAS alias pick w))
  = get SYSTEM_ALIAS (globalState w).
Proof.
  unfold addToGroup.
  destruct (data alias) as [d|]; [|reflexivity].
  destruct (isEmpty _); [reflexivity|].
  destruct pick as [i|]; [|reflexivity].
  destruct (nth_error _ i) as [target|] eqn:Hnth; [|reflexivity].
  apply nth_error_In, candidateGroups_spec in Hnth.
  simpl. apply get_setEntry_ne. intros ->. tauto.
Qed.

Lemma addNewGroup_membership SYSTEM_ALIAS input w :
  In SYSTEM_ALIAS (keys (globalState w)) ->
  get SYSTEM_ALIAS (globalState (addNewGroup input w)) = get SYSTEM_ALIAS (globalState w).
Proof.
  intros Hin. unfold addNewGroup.
  destruct input as [name|]; [|reflexivity].
  destruct (String.length name =? 0)%nat; [reflexivity|].
  destruct (existsb (String.eqb name) _) eqn:E; [reflexivity|].
  simpl. apply get_setEntry_ne. intros ->.
  apply existsb_eqb_in in Hin. congruence.
Qed.

Lemma renameGroup_membership SYSTEM_ALIAS alias input w :
  In SYSTEM_ALIAS (keys (globalState w)) ->
  group alias <> SYSTEM_ALIAS ->
  get SYSTEM_ALIAS (globalState (renameGroup alias input w))
  = get SYSTEM_ALIAS (globalState w).
Proof.
  intros Hin Hne. unfold renameGroup.
  destruct input as [name|]; [|reflexivity].
  destruct (String.length name =? 0)%nat; [reflexivity|].
  destruct (existsb (String.eqb name) _) eqn:E; [reflexivity|].
  simpl. rewrite get_setEntry_ne.
  - apply get_removeEntry_ne. congruence.
  - intros ->. apply existsb_eqb_in in Hin. congruence.
Qed.

Lemma removeFromCurrentGroup_membership SYSTEM_ALIAS alias w :
  group alias <> SYSTEM_ALIAS ->
  get SYSTEM_ALIAS (globalState (removeFromCurrentGroup alias w))
  = get SYSTEM_ALIAS (globalState w).
Proof.
  intros Hne. unfold removeFromCurrentGroup.
  destruct (data alias); [|reflexivity].
  simpl. apply get_setEntry_ne. congruence.
Qed.

(** C3, as stated, fails: delete-alias is neither the population of the
    tree nor the add-alias flow, and it removes [nv] from the system
    group of the sample store. *)
Lemma deleteAlias_writes_system_group_counterexample :
  ~ only_populate_and_add_change_system_membership.
Proof.
  intros H.
  specialize (H "system" codeUnitCompare (DeleteAlias nvItem) sampleWorld).
  apply Permutation_length in H.
  - vm_compute in H. discriminate H.
  - simpl. tauto.
  - exact NoDup_sampleStore.
  - reflexivity.
Qed.

Example deleteAlias_sample :
  globalState (deleteAlias nvItem sampleWorld)
  = [("system", [gs]); ("work", [gs; gp]); ("misc", [gp])] /\
  storeFile (deleteAlias nvItem sampleWorld)
  = ["# aliases"; "export PATH=/bin"; "alias gs='git status'"].
Proof. split; reflexivity. Qed.

(** C3, amended.  The population of the tree overwrites the system group
    with the aliases parsed from the store file, in file order, and
    touches no other group.  A successful add-alias appends the new alias
    to the store file and to the system group in one operation, so that
    the file parses to one more alias, the resolved one.  They are not
    the only writers of the membership of the system group: delete-alias,
    delete-all-aliases and the two renames write it too, and so do
    remove-from-group, delete-group and rename-group when they are
    invoked on the system group.  Every other request leaves the
    identities held by the system group as they are, up to their
    order. *)
Theorem system_group_write_paths :
  forall (SYSTEM_ALIAS : string) (localeCompare : string -> string -> Z) (w : World),
    (let w' := snd (getChildren SYSTEM_ALIAS None w) in
     get SYSTEM_ALIAS (globalState w') = Some (getAliases (storeFile w)) /\
     (forall g, g <> SYSTEM_ALIAS -> get g (globalState w') = get g (globalState w)) /\
     storeFile w' = storeFile w) /\
    (forall input r,
       resolveAlias ("alias " ++ input) = Some r ->
       ~ In (aliasName r) (map aliasName (getAliases (storeFile w))) ->
       let w' := addAlias SYSTEM_ALIAS (Some input) w in
       storeFile w' = storeFile w ++ [("alias " ++ input)%string] /\
       getAliases (storeFile w') = getAliases (storeFile w) ++ [r] /\
       get SYSTEM_ALIAS (globalState w')
       = Some (normalizeAliasesToArray (get SYSTEM_ALIAS (globalState w))
               ++ [mkAlias (aliasName r) (command r) (Some 0%Z) (Some "")]) /\
       (forall g, g <> SYSTEM_ALIAS -> get g (globalState w') = get g (globalState w))) /\
    (forall c,
       In SYSTEM_ALIAS (keys (globalState w)) ->
       NoDup (keys (globalState w)) ->
       writesSystemMembership SYSTEM_ALIAS c = false ->
       Permutation (systemMembership SYSTEM_ALIAS (execute SYSTEM_ALIAS localeCompare c w))
                   (systemMembership SYSTEM_ALIAS w)).
Proof.
  intros SYS lc w. split; [|split].
  - simpl. repeat split.
    + apply get_setEntry_eq.
    + intros g Hne. now apply get_setEntry_ne.
  - intros input r Hr Hfresh w'. subst w'. unfold addAlias.
    rewrite (length_eqb_0_false _ (resolveAlias_needs_text _ _ Hr)), Hr.
    rewrite (not_in_existsb_eqb _ _ Hfresh).
    cbn [storeFile globalState refresh executeCommandInTerminal emit
         globalState_update writeStoreFile update globalState_get].
    repeat split.
    + unfold appendAliasToStoreFile. rewrite getAliases_app.
      cbn [getAliases]. now rewrite Hr.
    + apply get_setEntry_eq.
    + intros g Hne. now apply get_setEntry_ne.
  - intros c Hin Hnd Hc.
    destruct c; simpl in Hc; try discriminate Hc; simpl execute.
    + now rewrite runAlias_membership.
    + apply membership_of_get. unfold copyAllAlias. now destruct (isEmpty _).
    + apply membership_of_get. unfold copyAlias. now destruct (data alias).
    + apply membership_of_get, renameGroup_membership; [assumption|].
      now apply String.eqb_neq.
    + apply membership_of_get. now apply addNewGroup_membership.
    + apply membership_of_get. simpl. apply get_removeEntry_ne.
      apply String.eqb_neq in Hc. congruence.
    + now rewrite setDescription_membership.
    + apply membership_of_get, addToGroup_membership.
    + apply membership_of_get, removeFromCurrentGroup_membership.
      now apply String.eqb_neq.
    + now apply (sort_membership (compareAlphabet lc) SYS alias w).
    + now apply (sort_membership compareFrequency SYS alias w).
Qed.

Lemma system_group_write_paths_witness :
  (let w' := addAlias "system" (Some "gl='git log'") sampleWorld in
   storeFile w' = sampleFile ++ ["alias gl='git log'"] /\
   getAliases (storeFile w')
   = getAliases sampleFile ++ [mkAlias "gl" "git log" (Some 0%Z) (Some "")] /\
   get "system" (globalState w')
   = Some ([nv; gs] ++ [mkAlias "gl" "git log" (Some 0%Z) (Some "")]) /\
   (forall g, g <> "system" -> get g (globalState w') = get g sampleStore)) /\
  Permutation
    (systemMembership "system"
       (execute "system" codeUnitCompare (SortByAlphabet nvItem) sampleWorld))
    (systemMembership "system" sampleWorld).
Proof.
  destruct (system_group_write_paths "system" codeUnitCompare sampleWorld)
    as (_ & Hadd & Hother).
  split.
  - apply (Hadd "gl='git log'" (mkAlias "gl" "git log" (Some 0%Z) (Some ""))).
    + reflexivity.
    + simpl. intuition discriminate.
  - apply Hother.
    + simpl. tauto.
    + exact NoDup_sampleStore.
    + reflexivity.
Defined.

Example getAliasTree_sample :
  let w := mkWorld [("system", []); ("work", [nv])] sampleFile [] in
  globalState (snd (getChildren "system" None w))
  = [("system", [nv; mkAlias "gs" "git status" (Some 0%Z) (Some "")]); ("work", [nv])].
Proof. reflexivity. Qed.

(* ================================================================== *)
(** ** Unique keys are an invariant of the view *)

Lemma fold_left_invariant {A B} (P : A -> Prop) (f : A -> B -> A) (l : list B) (a : A) :
  (forall x y, P x -> P (f x y)) -> P a -> P (fold_left f l a).
Proof.
  intros Hf. revert a. induction l as [|y l IH]; intros a Ha; simpl; auto.
Qed.

Lemma uniqueKeys_update (k : string) (v : option (list Alias)) (w : World) :
  NoDup (keys (globalState w)) ->
  NoDup (keys (globalState (globalState_update k v w))).
Proof. intros H. simpl. now apply NoDup_keys_update. Qed.

Ltac keys_stay_unique :=
  repeat first
    [ assumption
    | apply uniqueKeys_update
    | apply (fold_left_invariant (fun w => NoDup (keys (globalState w)))); [intros ? ? ?|]
    | progress cbn [globalState refresh emit executeCommandInTerminal writeStoreFile snd]
    | match goal with
      | |- context [match ?x with _ => _ end] => destruct x
      | |- context [if ?x then _ else _] => destruct x
      end ].

(** Every request keeps the keys of the store unique, so the stores that
    the view reaches from a store with unique keys have unique keys. *)
Lemma execute_keeps_keys_unique (SYSTEM_ALIAS : string)
  (localeCompare : string -> string -> Z) (c : Command) (w : World) :
  NoDup (keys (globalState w)) ->
  NoDup (keys (globalState (execute SYSTEM_ALIAS localeCompare c w))).
Proof.
  intros H. destruct c; cbn [execute];
    try (rewrite renameAliasName_keys; exact H);
    try (rewrite renameAliasCommand_keys; exact H);
    unfold getChildren, getAliasTree, addAlias, deleteAlias, deleteAllAlias,
      runAlias, copyAllAlias, copyAlias,
      renameGroup, addNewGroup, deleteGroup, setDescription, addToGroup,
      removeFromCurrentGroup, sortByAlphabet, sortByFrequency;
    keys_stay_unique.
Qed.

Lemma newAliasView_keys_unique (SYSTEM_ALIAS : string) (m : Memento) (f : File) :
  NoDup (keys m) -> NoDup (keys (globalState (newAliasView SYSTEM_ALIAS m f))).
Proof. intros H. unfold newAliasView. now apply uniqueKeys_update. Qed.

(* ================================================================== *)
(** ** Deleting one alias *)


Lemma isSameAlias_identity (a b : Alias) :
  isSameAlias a b = true <-> identity a = identity b.
Proof.
  unfold isSameAlias, identity. rewrite andb_true_iff, !String.eqb_eq.
  split; [intros [-> ->]; reflexivity | intros H; now inversion H].
Qed.

Lemma deleteAlias_unfold alias d w :
  data alias = Some d ->
  deleteAlias alias w =
  refresh None
    (executeCommandInTerminal (formatUnaliasCommand [d])
       (rewriteGroups
          (fun l => Some (filter (fun aliasItem => negb (isSameAlias d aliasItem)) l))
          (keys (globalState w))
          (writeStoreFile (deleteAliases (storeFile w) (Some d)) w))).
Proof. intros Hd. unfold deleteAlias. rewrite Hd. reflexivity. Qed.

(** A loop that writes every group appends one write per key, in key
    order, each of the sequence computed from the group as it was. *)
Lemma rewriteGroups_total_trace (h : list Alias -> list Alias) ks w :
  NoDup ks ->
  trace (rewriteGroups (fun l => Some (h l)) ks w)
  = trace w ++
    map (fun k => StateUpdate k
                    (Some (h (normalizeAliasesToArray (get k (globalState w)))))) ks.
Proof.
  revert w. induction ks as [|k ks IH]; intros w Hnd.
  - simpl. now rewrite app_nil_r.
  - inversion Hnd as [|? ? Hnk Hnd']; subst.
    rewrite rewriteGroups_cons, IH by assumption.
    unfold globalState_get, globalState_update.
    cbn [trace globalState map update]. rewrite <- app_assoc.
    f_equal. cbn [app]. f_equal.
    apply map_ext_in. intros k' Hin.
    rewrite get_setEntry_ne; [reflexivity|]. intros ->. contradiction.
Qed.

(** X1.  delete-alias removes every alias of the identity of the item
    from every group of the store, the keys staying as they are: each
    group becomes its sequence without the aliases of that identity, in
    the same order, so that no group holds the identity afterwards. *)
Theorem deleteAlias_removes_identity_from_every_group :
  forall (alias : AliasItem) (d : Alias) (w : World),
    data alias = Some d ->
    NoDup (keys (globalState w)) ->
    let w' := deleteAlias alias w in
    keys (globalState w') = keys (globalState w) /\
    (forall g l, get g (globalState w) = Some l ->
       get g (globalState w')
       = Some (filter (fun a => negb (isSameAlias d a)) l)) /\
    (forall g l a, get g (globalState w') = Some l -> In a l ->
       identity a <> identity d).
Proof.
  intros alias d w Hd Hnd w'. subst w'. rewrite (deleteAlias_unfold _ _ _ Hd).
  cbn [refresh executeCommandInTerminal emit globalState].
  set (w1 := writeStoreFile _ w).
  assert (Hk : keys (globalState (rewriteGroups
                 (fun l => Some (filter (fun a => negb (isSameAlias d a)) l))
                 (keys (globalState w)) w1)) = keys (globalState w))
    by exact (rewriteGroups_keys _ _ w1 (fun k H => H)).
  assert (Hg : forall g l, get g (globalState w) = Some l ->
            get g (globalState (rewriteGroups
                 (fun l => Some (filter (fun a => negb (isSameAlias d a)) l))
                 (keys (globalState w)) w1))
            = Some (filter (fun a => negb (isSameAlias d a)) l)).
  { intros g l Hl.
    rewrite (rewriteGroups_get_in _ _ w1 g Hnd (get_in_keys _ _ _ Hl)).
    change (globalState w1) with (globalState w). now rewrite Hl. }
  split; [exact Hk|]. split; [exact Hg|].
  intros g l a Hl Hin Hid.
  pose proof (get_in_keys _ _ _ Hl) as Hkey. rewrite Hk in Hkey.
  destruct (in_keys_get _ _ Hkey) as [l0 Hl0].
  rewrite (Hg _ _ Hl0) in Hl. injection Hl as <-.
  apply filter_In in Hin. destruct Hin as [_ Hin].
  assert (Hs : isSameAlias d a = true) by (apply isSameAlias_identity; congruence).
  rewrite Hs in Hin. discriminate.
Qed.

Lemma deleteAlias_removes_identity_from_every_group_witness :
  keys (globalState (deleteAlias nvItem sampleWorld)) = ["system"; "work"; "misc"] /\
  get "work" (globalState (deleteAlias nvItem sampleWorld)) = Some [gs; gp] /\
  (forall g l a, get g (globalState (deleteAlias nvItem sampleWorld)) = Some l ->
     In a l -> identity a <> identity nv).
Proof.
  destruct (deleteAlias_removes_identity_from_every_group nvItem nv sampleWorld
              eq_refl NoDup_sampleStore) as (H1 & H2 & H3).
  split; [exact H1|]. split; [exact (H2 "work" [gs; nv; gp] eq_refl) | exact H3].
Defined.

(** X2.  delete-alias writes every group of the store once, in key
    order, then sends the unalias text and asks for a refresh;
    delete-all-aliases sends the unalias text first and then writes the
    empty sequence to every group, in key order. *)
Theorem delete_commands_effect_order :
  forall (alias : AliasItem) (d : Alias) (text : string) (w : World),
    data alias = Some d ->
    NoDup (keys (globalState w)) ->
    trace (deleteAlias alias w)
    = trace w ++
      map (fun k => StateUpdate k
             (Some (filter (fun a => negb (isSameAlias d a))
                      (normalizeAliasesToArray (get k (globalState w))))))
          (keys (globalState w))
      ++ [SendText (formatUnaliasCommand [d]); TreeDataChanged None] /\
    (getAliases (storeFile w) <> [] ->
     trace (deleteAllAlias (Some text) w)
     = trace w ++ [SendText (formatUnaliasCommand (getAliases (storeFile w)))]
       ++ map (fun k => StateUpdate k (Some [])) (keys (globalState w))
       ++ [TreeDataChanged None]).
Proof.
  intros alias d text w Hd Hnd. split.
  - rewrite (deleteAlias_unfold _ _ _ Hd).
    cbn [refresh executeCommandInTerminal emit trace].
    rewrite (rewriteGroups_total_trace
               (filter (fun a => negb (isSameAlias d a))) _ _ Hnd).
    cbn [writeStoreFile trace globalState]. now rewrite <- !app_assoc.
  - intros Hne. unfold deleteAllAlias.
    apply isEmpty_false_iff in Hne. rewrite Hne.
    set (w2 := writeStoreFile _ _).
    change (fold_left _ (keys (globalState w2)) w2)
      with (rewriteGroups (fun _ => Some []) (keys (globalState w2)) w2).
    pose proof (rewriteGroups_total_trace (fun _ => []) (keys (globalState w2)) w2 Hnd)
      as Ht.
    cbn beta in Ht. cbn [refresh emit trace]. rewrite Ht.
    subst w2. cbn [writeStoreFile executeCommandInTerminal emit trace globalState].
    now rewrite <- !app_assoc.
Qed.

Lemma delete_commands_effect_order_witness :
  trace (deleteAlias nvItem sampleWorld)
  = [StateUpdate "system" (Some [gs]); StateUpdate "work" (Some [gs; gp]);
     StateUpdate "misc" (Some [gp]); SendText "unalias nv"; TreeDataChanged None] /\
  trace (deleteAllAlias (Some "Confirm") sampleWorld)
  = [SendText "unalias nv gs"; StateUpdate "system" (Some []);
     StateUpdate "work" (Some []); StateUpdate "misc" (Some []); TreeDataChanged None].
Proof.
  destruct (delete_commands_effect_order nvItem nv "Confirm" sampleWorld
              eq_refl NoDup_sampleStore) as (H1 & H2).
  split; [exact H1 | apply H2; discriminate].
Defined.

(* ================================================================== *)
(** ** Removing an alias from one group *)

Lemma sentTexts_app (a b : list Event) :
  sentTexts (a ++ b) = sentTexts a ++ sentTexts b.
Proof.
  induction a as [|e a IH]; [reflexivity|].
  destruct e; simpl; now rewrite IH.
Qed.

(** X3.  remove-from-group rewrites the group of the item only: that
    group becomes its sequence without the aliases of the identity of the
    item (a group missing from the store is created empty); the other
    groups and the store file are as before, and nothing is sent to the
    terminal. *)
Theorem removeFromCurrentGroup_touches_one_group :
  forall (alias : AliasItem) (d : Alias) (w : World),
    data alias = Some d ->
    let w' := removeFromCurrentGroup alias w in
    get (group alias) (globalState w')
    = Some (filter (fun a => negb (isSameAlias d a))
              (normalizeAliasesToArray (get (group alias) (globalState w)))) /\
    (forall g, g <> group alias -> get g (globalState w') = get g (globalState w)) /\
    storeFile w' = storeFile w /\
    sentTexts (trace w') = sentTexts (trace w).
Proof.
  intros alias d w Hd w'. subst w'. unfold removeFromCurrentGroup. rewrite Hd.
  cbn [refresh emit globalState_update globalState storeFile trace update].
  split; [apply get_setEntry_eq|].
  split; [intros g Hne; now apply get_setEntry_ne|].
  split; [reflexivity|].
  rewrite !sentTexts_app. simpl. now rewrite !app_nil_r.
Qed.

Lemma removeFromCurrentGroup_touches_one_group_witness :
  get "misc" (globalState (removeFromCurrentGroup gpItem sampleWorld)) = Some [] /\
  get "work" (globalState (removeFromCurrentGroup gpItem sampleWorld)) = Some [gs; nv; gp] /\
  storeFile (removeFromCurrentGroup gpItem sampleWorld) = sampleFile.
Proof.
  destruct (removeFromCurrentGroup_touches_one_group gpItem gp sampleWorld eq_refl)
    as (H1 & H2 & H3 & _).
  split; [exact H1|]. split; [apply (H2 "work"); discriminate | exact H3].
Defined.

(* ================================================================== *)
(** ** Refused and abandoned requests *)

(** X4.  add-alias writes only for a text that resolves to an alias whose
    name is not in the store file.  For every other text (empty, not of
    the alias grammar, or of a name already in the file) the group store
    and the store file are as before, nothing is sent to the terminal,
    and the only effect is one error or warning message. *)
Theorem addAlias_refuses_without_writing :
  forall (SYSTEM_ALIAS input : string) (w : World),
    (forall r, resolveAlias ("alias " ++ input) = Some r ->
               In (aliasName r) (map aliasName (getAliases (storeFile w)))) ->
    let w' := addAlias SYSTEM_ALIAS (Some input) w in
    globalState w' = globalState w /\
    storeFile w' = storeFile w /\
    exists message,
      trace w' = trace w ++ [message] /\
      (message = ShowErrorMessage "Alias is mandatory to execute this action" \/
       message = ShowErrorMessage "Please check the format of the input content" \/
       message = ShowWarningMessage "Duplicate alias").
Proof.
  intros SYS input w Hr w'. subst w'. unfold addAlias.
  destruct (String.length input =? 0)%nat.
  - repeat split. eexists. split; [reflexivity | auto].
  - destruct (resolveAlias ("alias " ++ input)) as [r|].
    + specialize (Hr r eq_refl). apply existsb_eqb_in in Hr. rewrite Hr.
      repeat split. eexists. split; [reflexivity | auto].
    + repeat split. eexists. split; [reflexivity | auto].
Qed.

Lemma addAlias_refuses_without_writing_witness :
  globalState (addAlias "system" (Some "gl git log") sampleWorld) = sampleStore /\
  storeFile (addAlias "system" (Some "gl git log") sampleWorld) = sampleFile /\
  exists message,
    trace (addAlias "system" (Some "gl git log") sampleWorld) = [message] /\
    (message = ShowErrorMessage "Alias is mandatory to execute this action" \/
     message = ShowErrorMessage "Please check the format of the input content" \/
     message = ShowWarningMessage "Duplicate alias").
Proof.
  apply (addAlias_refuses_without_writing "system" "gl git log" sampleWorld).
  intros r H. discriminate H.
Defined.

(** X5.  A request on an item without alias data (a group node), and a
    request whose prompt was cancelled, leave the world exactly as it
    was: no write, no message, no refresh. *)
Theorem abandoned_requests_change_nothing :
  forall (SYSTEM_ALIAS : string) (alias : AliasItem) (input : option string)
         (pick slot : option nat) (w : World),
    (data alias = None ->
     setDescription alias input w = w /\
     deleteAlias alias w = w /\
     renameAliasName alias slot input w = w /\
     renameAliasCommand alias slot input w = w /\
     runAlias alias w = w /\
     copyAlias alias w = w /\
     removeFromCurrentGroup alias w = w /\
     addToGroup SYSTEM_ALIAS alias pick w = w) /\
    (setDescription alias None w = w /\
     addAlias SYSTEM_ALIAS None w = w /\
     deleteAllAlias None w = w /\
     renameAliasName alias slot None w = w /\
     renameAliasCommand alias slot None w = w /\
     renameGroup alias None w = w /\
     addNewGroup None w = w /\
     (candidateGroups SYSTEM_ALIAS alias w <> [] ->
      addToGroup SYSTEM_ALIAS alias None w = w)).
Proof.
  intros SYS alias input pick slot w. split.
  - intros Hd.
    unfold setDescription, deleteAlias, renameAliasName, renameAliasCommand,
      runAlias, copyAlias, removeFromCurrentGroup, addToGroup.
    rewrite Hd. repeat split.
  - unfold setDescription, renameAliasName, renameAliasCommand, addToGroup.
    repeat split; try (destruct (data alias); reflexivity).
    intros Hne. apply isEmpty_false_iff in Hne. rewrite Hne.
    destruct (data alias); reflexivity.
Qed.

Lemma abandoned_requests_change_nothing_witness :
  runAlias workItem sampleWorld = sampleWorld /\
  deleteAlias workItem sampleWorld = sampleWorld /\
  addToGroup "system" nvItem None sampleWorld = sampleWorld.
Proof.
  destruct (abandoned_requests_change_nothing "system" workItem None None None
              sampleWorld) as (H & _).
  destruct (H eq_refl) as (_ & H2 & _ & _ & H5 & _).
  destruct (abandoned_requests_change_nothing "system" nvItem None None None
              sampleWorld) as (_ & _ & _ & _ & _ & _ & _ & _ & H8).
  split; [exact H5|]. split; [exact H2|]. apply H8. discriminate.
Defined.

(** An empty text is refused by the rename and group prompts before
    anything else is looked at: the only effect is the error naming the
    missing field, also when the empty text is a key of the store. *)
Theorem empty_text_is_refused_first :
  forall (alias : AliasItem) (d : Alias) (w : World),
    data alias = Some d ->
    renameAliasName alias None (Some "") w
    = emit (ShowErrorMessage "Alias name is mandatory to execute this action") w /\
    renameAliasCommand alias None (Some "") w
    = emit (ShowErrorMessage "Alias command is mandatory to execute this action") w /\
    renameGroup alias (Some "") w
    = emit (ShowErrorMessage "Group is mandatory to execute this action") w /\
    addNewGroup (Some "") w
    = emit (ShowErrorMessage "Group is mandatory to execute this action") w.
Proof.
  intros alias d w Hd. unfold renameAliasName, renameAliasCommand. rewrite Hd.
  repeat split.
Qed.

Lemma empty_text_is_refused_first_witness :
  globalState (renameAliasName nvItem None (Some "") sampleWorld) = sampleStore /\
  trace (addNewGroup (Some "") (mkWorld [("", [nv])] sampleFile []))
  = [ShowErrorMessage "Group is mandatory to execute this action"].
Proof.
  destruct (empty_text_is_refused_first nvItem nv sampleWorld eq_refl) as (H1 & _).
  destruct (empty_text_is_refused_first nvItem nv (mkWorld [("", [nv])] sampleFile [])
              eq_refl) as (_ & _ & _ & H4).
  rewrite H1, H4. split; reflexivity.
Defined.

(* ================================================================== *)
(** ** Creating, renaming and filling groups *)

Lemma addNewGroup_fresh (name : string) (w : World) :
  name <> "" ->
  ~ In name (keys (globalState w)) ->
  addNewGroup (Some name) w = refresh None (globalState_update name (Some []) w).
Proof.
  intros Hne Hfresh. unfold addNewGroup.
  now rewrite (length_eqb_0_false _ Hne), (not_in_existsb_eqb _ _ Hfresh).
Qed.

(** X6.  new-group with a non-empty name that is not a key adds that key
    with the empty sequence: the keys are the old ones and the new one,
    the other groups and the store file are as before; the same request
    made again is refused and leaves the store as the first one made
    it. *)
Theorem addNewGroup_adds_empty_group_once :
  forall (name : string) (w : World),
    name <> "" ->
    ~ In name (keys (globalState w)) ->
    let w' := addNewGroup (Some name) w in
    get name (globalState w') = Some [] /\
    (forall g, g <> name -> get g (globalState w') = get g (globalState w)) /\
    (forall k, In k (keys (globalState w')) <-> k = name \/ In k (keys (globalState w))) /\
    storeFile w' = storeFile w /\
    globalState (addNewGroup (Some name) w') = globalState w' /\
    trace (addNewGroup (Some name) w') = trace w' ++ [ShowErrorMessage "Duplicate group"].
Proof.
  intros name w Hne Hfresh w'.
  assert (Hw' : w' = refresh None (globalState_update name (Some []) w))
    by (subst w'; now apply addNewGroup_fresh).
  assert (Hget : get name (globalState w') = Some [])
    by (rewrite Hw'; simpl; apply get_setEntry_eq).
  split; [exact Hget|].
  split; [intros g Hg; rewrite Hw'; simpl; now apply get_setEntry_ne|].
  split.
  { intros k. rewrite Hw'. simpl. rewrite (setEntry_notin _ _ _ Hfresh).
    unfold keys. rewrite map_app, in_app_iff. simpl. intuition. }
  split; [now rewrite Hw'|].
  assert (Hin : existsb (String.eqb name) (keys (globalState w')) = true).
  { apply existsb_eqb_in. eapply get_in_keys. exact Hget. }
  unfold addNewGroup at 1 2. rewrite (length_eqb_0_false _ Hne), Hin.
  split; reflexivity.
Qed.

Lemma addNewGroup_adds_empty_group_once_witness :
  get "play" (globalState (addNewGroup (Some "play") sampleWorld)) = Some [] /\
  get "work" (globalState (addNewGroup (Some "play") sampleWorld)) = Some [gs; nv; gp] /\
  globalState (addNewGroup (Some "play") (addNewGroup (Some "play") sampleWorld))
  = globalState (addNewGroup (Some "play") sampleWorld).
Proof.
  destruct (addNewGroup_adds_empty_group_once "play" sampleWorld)
    as (H1 & H2 & _ & _ & H5 & _).
  - discriminate.
  - simpl. intuition discriminate.
  - split; [exact H1|]. split; [apply (H2 "work"); discriminate | exact H5].
Defined.







(* ================================================================== *)
(** ** Sorting twice *)

Lemma sortArray_of_sorted {A} (cmp : A -> A -> Z) (l : list A) :
  StronglySorted (fun a b => (cmp a b <= 0)%Z) l -> sortArray cmp l = l.
Proof.
  induction l as [|x l IH]; [reflexivity|].
  intros Hs. inversion Hs as [|? ? Hs' Hall]; subst.
  cbn [sortArray]. rewrite (IH Hs').
  destruct l as [|y tl]; [reflexivity|].
  cbn [insertSorted]. inversion Hall as [|? ? Hxy _]; subst.
  apply Z.ltb_ge in Hxy. now rewrite Hxy.
Qed.

Lemma sort_command_twice (cmp : Alias -> Alias -> Z) (alias : AliasItem) (w : World) :
  consistentComparator cmp ->
  let sortBy w :=
    let aliases := normalizeAliasesToArray (globalState_get (group alias) w) in
    if isEmpty aliases then w
    else refresh None
           (globalState_update (group alias) (Some (sortArray cmp aliases)) w) in
  globalState (sortBy (sortBy w)) = globalState (sortBy w).
Proof.
  intros Hc sortBy. subst sortBy. cbn beta zeta. unfold globalState_get.
  destruct (get (group alias) (globalState w)) as [l|] eqn:Hg;
    cbn [normalizeAliasesToArray].
  - destruct l as [|a l]; cbn [isEmpty].
    + rewrite Hg. reflexivity.
    + cbn [refresh emit globalState_update globalState update].
      rewrite get_setEntry_eq. cbn [normalizeAliasesToArray].
      assert (Hne : isEmpty (sortArray cmp (a :: l)) = false).
      { apply isEmpty_false_iff. apply sortArray_nonempty. discriminate. }
      rewrite Hne. cbn [refresh emit globalState_update globalState update].
      rewrite (sortArray_of_sorted cmp _ (sortArray_sorted cmp Hc (a :: l))).
      apply setEntry_setEntry.
  - cbn [isEmpty]. rewrite Hg. reflexivity.
Qed.

(** X9.  Sorting a group a second time changes nothing: the store after
    two sort-by-frequency requests on a group is the store after one, and
    the same holds for sort-by-alphabet when the collation is a
    consistent comparator. *)
Theorem sorting_twice_is_sorting_once :
  forall (localeCompare : string -> string -> Z) (alias : AliasItem) (w : World),
    consistentComparator localeCompare ->
    globalState (sortByFrequency alias (sortByFrequency alias w))
    = globalState (sortByFrequency alias w) /\
    globalState (sortByAlphabet localeCompare alias (sortByAlphabet localeCompare alias w))
    = globalState (sortByAlphabet localeCompare alias w).
Proof.
  intros lc alias w Hc. split.
  - exact (sort_command_twice compareFrequency alias w compareFrequency_consistent).
  - exact (sort_command_twice (compareAlphabet lc) alias w
             (compareAlphabet_consistent lc Hc)).
Qed.

Lemma sorting_twice_is_sorting_once_witness :
  globalState (sortByFrequency workItem (sortByFrequency workItem sampleWorld))
  = globalState (sortByFrequency workItem sampleWorld) /\
  globalState (sortByAlphabet codeUnitCompare workItem
                 (sortByAlphabet codeUnitCompare workItem sampleWorld))
  = globalState (sortByAlphabet codeUnitCompare workItem sampleWorld).
Proof.
  exact (sorting_twice_is_sorting_once codeUnitCompare workItem sampleWorld
           codeUnitCompare_consistent).
Defined.

(* ================================================================== *)
(** ** What a request leaves alone *)

Ltac split_request :=
  repeat match goal with
         | |- context [match ?x with _ => _ end] => destruct x
         | |- context [if ?x then _ else _] => destruct x
         end.

Lemma sentTexts_snoc_other (tr : list Event) (e : Event) :
  (forall t, e <> SendText t) -> sentTexts (tr ++ [e]) = sentTexts tr.
Proof.
  intros H. rewrite sentTexts_app.
  destruct e; simpl; try apply app_nil_r. now destruct (H text).
Qed.

Lemma quiet_update (k : string) (v : option (list Alias)) (w0 w : World) :
  storeFile w = storeFile w0 /\ sentTexts (trace w) = sentTexts (trace w0) ->
  storeFile (globalState_update k v w) = storeFile w0 /\
  sentTexts (trace (globalState_update k v w)) = sentTexts (trace w0).
Proof.
  intros [H1 H2]. split; [exact H1|].
  cbn [globalState_update trace]. now rewrite sentTexts_snoc_other.
Qed.

Lemma quiet_emit (e : Event) (w0 w : World) :
  (forall t, e <> SendText t) ->
  storeFile w = storeFile w0 /\ sentTexts (trace w) = sentTexts (trace w0) ->
  storeFile (emit e w) = storeFile w0 /\
  sentTexts (trace (emit e w)) = sentTexts (trace w0).
Proof.
  intros He [H1 H2]. split; [exact H1|].
  cbn [emit trace]. now rewrite sentTexts_snoc_other.
Qed.

Ltac stays_quiet :=
  repeat first
    [ split; reflexivity
    | assumption
    | apply quiet_update
    | apply quiet_emit; [intros ?; discriminate|]
    | apply (fold_left_invariant
               (fun w' => storeFile w' = storeFile _ /\
                          sentTexts (trace w') = sentTexts (trace _)));
      [intros ? ? ?|]
    | progress unfold refresh
    | match goal with
      | |- context [match ?x with _ => _ end] => destruct x
      | |- context [if ?x then _ else _] => destruct x
      end ].

(** X10.  Only add-alias, delete-alias, delete-all-aliases and the two
    renames write the store file, and only they and run-alias send text
    to the terminal: the group commands, the sorts, set-description, the
    copies and the population of the tree leave the file and the
    terminal alone, and run-alias leaves the file alone. *)
Theorem file_and_terminal_frame :
  forall (SYSTEM_ALIAS : string) (localeCompare : string -> string -> Z)
         (c : Command) (w : World),
    (writesStoreFile c = false ->
     storeFile (execute SYSTEM_ALIAS localeCompare c w) = storeFile w) /\
    (sendsToTerminal c = false ->
     sentTexts (trace (execute SYSTEM_ALIAS localeCompare c w)) = sentTexts (trace w)).
Proof.
  intros SYS lc c w.
  assert (Hrun : storeFile (runAlias (match c with Run a => a | _ => groupNode "" end) w)
                 = storeFile w).
  { unfold runAlias. split_request; reflexivity. }
  assert (H : sendsToTerminal c = false ->
              storeFile (execute SYS lc c w) = storeFile w /\
              sentTexts (trace (execute SYS lc c w)) = sentTexts (trace w)).
  { intros Hc. destruct c; try discriminate Hc; cbn [execute];
      unfold getChildren, getAliasTree, copyAllAlias, copyAlias,
        renameGroup, addNewGroup, deleteGroup, setDescription, addToGroup,
        removeFromCurrentGroup, sortByAlphabet, sortByFrequency;
      cbn [snd]; stays_quiet. }
  split.
  - intros Hc. destruct (sendsToTerminal c) eqn:Hs; [|now apply H].
    destruct c; try discriminate Hc; try discriminate Hs. exact Hrun.
  - intros Hc. now apply H.
Qed.

Lemma file_and_terminal_frame_witness :
  storeFile (execute "system" codeUnitCompare (DeleteGroup workItem) sampleWorld)
  = sampleFile /\
  sentTexts (trace (execute "system" codeUnitCompare (SetDescription nvItem (Some "v"))
                      sampleWorld)) = [].
Proof.
  split.
  - apply (file_and_terminal_frame "system" codeUnitCompare (DeleteGroup workItem)
             sampleWorld). reflexivity.
  - apply (file_and_terminal_frame "system" codeUnitCompare
             (SetDescription nvItem (Some "v")) sampleWorld). reflexivity.
Defined.

Lemma fold_left_keys (step : World -> string -> World) (ks : list string) (w0 w : World) :
  (forall w' k, keys (globalState w') = keys (globalState w0) ->
                In k (keys (globalState w0)) ->
                keys (globalState (step w' k)) = keys (globalState w0)) ->
  (forall k, In k ks -> In k (keys (globalState w0))) ->
  keys (globalState w) = keys (globalState w0) ->
  keys (globalState (fold_left step ks w)) = keys (globalState w0).
Proof.
  intros Hstep. revert w. induction ks as [|k ks IH]; intros w Hsub Hw; [exact Hw|].
  simpl. apply IH.
  - intros k' Hk'. apply Hsub. now right.
  - apply Hstep; [exact Hw | apply Hsub; now left].
Qed.

Lemma keys_update_in (k : string) (v : list Alias) (w0 w : World) :
  keys (globalState w) = keys (globalState w0) ->
  In k (keys (globalState w0)) ->
  keys (globalState (globalState_update k (Some v) w)) = keys (globalState w0).
Proof.
  intros Hw Hk. cbn [globalState_update globalState update].
  rewrite keys_setEntry_in; [exact Hw | now rewrite Hw].
Qed.

Lemma nonempty_group_in_keys (k : string) (m : Memento) :
  normalizeAliasesToArray (get k m) <> [] -> In k (keys m).
Proof.
  destruct (get k m) as [l|] eqn:E; [intros _; eapply get_in_keys; eauto|].
  simpl. congruence.
Qed.

Ltac keys_kept :=
  repeat first
    [ assumption
    | reflexivity
    | apply keys_update_in
    | apply fold_left_keys; [intros ? ? ? ?| auto |]
    | progress cbn [refresh emit executeCommandInTerminal writeStoreFile globalState snd]
    | match goal with
      | |- context [match ?x with _ => _ end] => destruct x
      | |- context [if ?x then _ else _] => destruct x
      end ].

(** X11.  The requests on aliases never add, remove or reorder the keys
    of the group store: apart from new-group, rename-group, delete-group
    and remove-from-group, every request leaves the keys as they are, in
    a store that holds the system key. *)
Theorem alias_requests_keep_the_groups :
  forall (SYSTEM_ALIAS : string) (localeCompare : string -> string -> Z)
         (c : Command) (w : World),
    In SYSTEM_ALIAS (keys (globalState w)) ->
    changesGroupSet c = false ->
    keys (globalState (execute SYSTEM_ALIAS localeCompare c w)) = keys (globalState w).
Proof.
  intros SYS lc c w Hsys Hc.
  destruct c; try discriminate Hc; cbn [execute].
  - unfold getChildren, getAliasTree. keys_kept.
  - unfold addAlias. keys_kept.
  - unfold deleteAlias. keys_kept.
  - unfold deleteAllAlias. keys_kept.
  - apply renameAliasName_keys.
  - apply renameAliasCommand_keys.
  - unfold runAlias. destruct (data alias) as [d|]; [|reflexivity].
    destruct (find _ _) as [hit|] eqn:Hfind; [|reflexivity].
    keys_kept. apply nonempty_group_in_keys.
    unfold globalState_get in Hfind. intros Hnil. rewrite Hnil in Hfind. discriminate.
  - unfold copyAllAlias. keys_kept.
  - unfold copyAlias. keys_kept.
  - unfold setDescription. keys_kept.
  - unfold addToGroup. destruct (data alias) as [d|]; [|reflexivity].
    destruct (isEmpty _); [reflexivity|].
    destruct pick as [i|]; [|reflexivity].
    destruct (nth_error _ i) as [target|] eqn:Hnth; [|reflexivity].
    apply nth_error_In, candidateGroups_spec in Hnth. keys_kept. tauto.
  - unfold sortByAlphabet. destruct (isEmpty _) eqn:He; [reflexivity|].
    keys_kept. apply nonempty_group_in_keys. now apply isEmpty_false_iff.
  - unfold sortByFrequency. destruct (isEmpty _) eqn:He; [reflexivity|].
    keys_kept. apply nonempty_group_in_keys. now apply isEmpty_false_iff.
Qed.

Lemma alias_requests_keep_the_groups_witness :
  keys (globalState (execute "system" codeUnitCompare (DeleteAllAlias (Some "Confirm"))
                       sampleWorld)) = ["system"; "work"; "misc"] /\
  keys (globalState (execute "system" codeUnitCompare (Add (Some "gl='git log'"))
                       sampleWorld)) = ["system"; "work"; "misc"].
Proof.
  split.
  - apply (alias_requests_keep_the_groups "system" codeUnitCompare
             (DeleteAllAlias (Some "Confirm")) sampleWorld); [simpl; tauto | reflexivity].
  - apply (alias_requests_keep_the_groups "system" codeUnitCompare
             (Add (Some "gl='git log'")) sampleWorld); [simpl; tauto | reflexivity].
Defined.

Lemma in_keys_setEntry (k k' : string) (v : list Alias) (m : Memento) :
  In k (keys m) -> In k (keys (setEntry k' v m)).
Proof.
  intros H. destruct (in_dec string_dec k' (keys m)) as [Hin|Hn].
  - now rewrite keys_setEntry_in.
  - rewrite setEntry_notin by assumption. unfold keys. rewrite map_app, in_app_iff.
    now left.
Qed.

Lemma in_keys_removeEntry (k k' : string) (m : Memento) :
  k <> k' -> In k (keys m) -> In k (keys (removeEntry k' m)).
Proof.
  intros Hne H. rewrite keys_removeEntry, filter_In. split; [exact H|].
  now apply negb_true_iff, String.eqb_neq.
Qed.

Lemma in_keys_update_some (k k' : string) (v : list Alias) (w : World) :
  In k (keys (globalState w)) ->
  In k (keys (globalState (globalState_update k' (Some v) w))).
Proof. intros H. simpl. now apply in_keys_setEntry. Qed.

Ltac key_stays k :=
  repeat first
    [ assumption
    | apply in_keys_update_some
    | apply (fold_left_invariant (fun w => In k (keys (globalState w)))); [intros ? ? ?|]
    | progress cbn [globalState refresh emit executeCommandInTerminal writeStoreFile snd]
    | match goal with
      | |- context [match ?x with _ => _ end] => destruct x
      | |- context [if ?x then _ else _] => destruct x
      end ].

(** X12.  The system group is always there: activation and every
    population of the tree leave the store with the system key, whatever
    the store held, and every request keeps the key, apart from
    delete-group and rename-group invoked on the system group itself.
    Activation leaves the persisted user groups as they are. *)
Theorem system_key_is_kept :
  forall (SYSTEM_ALIAS : string) (localeCompare : string -> string -> Z)
         (m : Memento) (f : File) (c : Command) (w : World),
    In SYSTEM_ALIAS (keys (globalState (newAliasView SYSTEM_ALIAS m f))) /\
    (forall g, g <> SYSTEM_ALIAS ->
               get g (globalState (newAliasView SYSTEM_ALIAS m f)) = get g m) /\
    In SYSTEM_ALIAS
       (keys (globalState (execute SYSTEM_ALIAS localeCompare PopulateTree w))) /\
    (In SYSTEM_ALIAS (keys (globalState w)) ->
     removesSystemKey SYSTEM_ALIAS c = false ->
     In SYSTEM_ALIAS (keys (globalState (execute SYSTEM_ALIAS localeCompare c w)))).
Proof.
  intros SYS lc m f c w.
  assert (Hset : forall v m0, In SYS (keys (setEntry SYS v m0))).
  { intros v m0. eapply get_in_keys. apply get_setEntry_eq. }
  split; [apply Hset|].
  split; [intros g Hne; simpl; now apply get_setEntry_ne|].
  split; [apply Hset|].
  intros Hsys Hc.
  destruct c; cbn [execute]; cbn [removesSystemKey] in Hc;
    try (rewrite renameAliasName_keys; exact Hsys);
    try (rewrite renameAliasCommand_keys; exact Hsys);
    try (unfold getChildren, getAliasTree, addAlias, deleteAlias, deleteAllAlias,
           runAlias, copyAllAlias, copyAlias,
           addNewGroup, setDescription, addToGroup,
           removeFromCurrentGroup, sortByAlphabet, sortByFrequency;
         key_stays SYS; fail).
  - apply String.eqb_neq in Hc. unfold renameGroup.
    destruct input as [name|]; [|exact Hsys].
    destruct (String.length name =? 0)%nat; [exact Hsys|].
    destruct (existsb _ _); [exact Hsys|].
    simpl. apply in_keys_setEntry, in_keys_removeEntry; [congruence | exact Hsys].
  - apply String.eqb_neq in Hc.
    simpl. apply in_keys_removeEntry; [congruence | exact Hsys].
Qed.

Lemma system_key_is_kept_witness :
  In "system" (keys (globalState (newAliasView "system" [("work", [nv])] sampleFile))) /\
  get "work" (globalState (newAliasView "system" [("work", [nv])] sampleFile)) = Some [nv] /\
  In "system"
     (keys (globalState (execute "system" codeUnitCompare (DeleteGroup workItem)
                           sampleWorld))).
Proof.
  destruct (system_key_is_kept "system" codeUnitCompare [("work", [nv])] sampleFile
              (DeleteGroup workItem) sampleWorld) as (H1 & H2 & _ & H4).
  split; [exact H1|]. split; [apply H2; discriminate|].
  apply H4; [simpl; tauto | reflexivity].
Defined.

(* ================================================================== *)
(** ** The tree *)

Lemma getAliasTree_items (SYSTEM_ALIAS : string) (w : World) :
  fst (getChildren SYSTEM_ALIAS None w)
  = map (fun key =>
           newAliasItem key None key ""
             (map (leafNode key)
                (normalizeAliasesToArray
                   (get key (globalState (snd (getChildren SYSTEM_ALIAS None w))))))
             false)
        (keys (globalState (snd (getChildren SYSTEM_ALIAS None w)))).
Proof. reflexivity. Qed.

(** X13.  The tree built on a population has one node per key of the
    store, in key order, labelled by the key; a node carries no alias and
    is not a leaf; its children are leaves, one per alias of the group in
    order, each carrying its alias, the key as its group, the frequency
    of the alias (0 when missing) as tooltip, and no children.  A node or
    leaf is marked as system exactly when its key is the system key.
    The children of the system node carry the aliases parsed from the
    store file. *)
Theorem getAliasTree_mirrors_the_store :
  forall (SYSTEM_ALIAS : string) (w : World),
    let items := fst (getChildren SYSTEM_ALIAS None w) in
    let m := globalState (snd (getChildren SYSTEM_ALIAS None w)) in
    map label items = keys m /\
    (forall item, In item items ->
       data item = None /\ isLeafNode item = false /\ group item = label item /\
       contextValue SYSTEM_ALIAS item
       = (if label item =? SYSTEM_ALIAS then "alias_system_parent" else "alias_parent") /\
       map data (children item)
       = map Some (normalizeAliasesToArray (get (label item) m)) /\
       (label item = SYSTEM_ALIAS ->
        map data (children item) = map Some (getAliases (storeFile w))) /\
       (forall leaf, In leaf (children item) ->
          isLeafNode leaf = true /\ group leaf = label item /\ children leaf = [] /\
          contextValue SYSTEM_ALIAS leaf
          = (if label item =? SYSTEM_ALIAS then "alias_system_child" else "alias_child") /\
          exists a, data leaf = Some a /\
                    In a (normalizeAliasesToArray (get (group leaf) m)) /\
                    tooltip leaf = frequencyOrZero a)).
Proof.
  intros SYS w items m. subst items. rewrite getAliasTree_items. fold m. split.
  - rewrite map_map. simpl. apply map_id.
  - intros item Hin. apply in_map_iff in Hin. destruct Hin as (key & <- & Hkey).
    cbn [newAliasItem data isLeafNode group label children contextValue negb].
    repeat split.
    + rewrite map_map. reflexivity.
    + intros ->. rewrite map_map. cbn [leafNode newAliasItem data].
      f_equal. subst m. simpl. now rewrite get_setEntry_eq.
    + apply in_map_iff in H. destruct H as (a & <- & _). reflexivity.
    + apply in_map_iff in H. destruct H as (a & <- & _). reflexivity.
    + apply in_map_iff in H. destruct H as (a & <- & _). reflexivity.
    + apply in_map_iff in H. destruct H as (a & <- & _). reflexivity.
    + apply in_map_iff in H. destruct H as (a & <- & Ha).
      exists a. repeat split. exact Ha.
Qed.

Lemma getAliasTree_mirrors_the_store_witness :
  map label (fst (getChildren "system" None sampleWorld)) = ["system"; "work"; "misc"] /\
  (forall item, In item (fst (getChildren "system" None sampleWorld)) ->
     data item = None /\ isLeafNode item = false /\
     map data (children item)
     = map Some (normalizeAliasesToArray
                   (get (label item)
                      (globalState (snd (getChildren "system" None sampleWorld)))))).
Proof.
  destruct (getAliasTree_mirrors_the_store "system" sampleWorld) as (H1 & H2).
  split; [exact H1|].
  intros item Hin. destruct (H2 item Hin) as (A & B & _ & _ & C & _).
  split; [exact A | split; [exact B | exact C]].
Defined.

Example getAliasTree_sample_tree :
  map (fun item => (label item, map label (children item)))
      (fst (getChildren "system" None sampleWorld))
  = [("system", ["nv = 'node -v'"; "gs = 'git status'"]);
     ("work", ["gs = 'git status'"; "nv = 'node -v'"; "gp = 'git push'"]);
     ("misc", ["gp = 'git push'"])].
Proof. reflexivity. Qed.

(* ================================================================== *)
(** ** Running an alias again and again *)

Lemma existsb_updateFirst {A} (p : A -> bool) (f : A -> A) (l : list A) :
  (forall a, p a = true -> p (f a) = true) ->
  existsb p (updateFirst p f l) = existsb p l.
Proof.
  intros Hf. induction l as [|x l IH]; [reflexivity|].
  simpl. destruct (p x) eqn:E; simpl; [now rewrite (Hf x E) | now rewrite E, IH].
Qed.

Lemma totalFrequency_increment (p : Alias -> bool) (l : list Alias) :
  existsb p l = true ->
  totalFrequency (updateFirst p incrementFrequency l) = (totalFrequency l + 1)%Z.
Proof.
  induction l as [|x l IH]; simpl; [discriminate|].
  destruct (p x); simpl.
  - intros _. unfold frequencyOrZero. simpl. lia.
  - intros H. rewrite (IH H). lia.
Qed.

Lemma runAlias_found (alias : AliasItem) (d : Alias) (w : World) :
  data alias = Some d ->
  existsb (isSameAlias d)
    (normalizeAliasesToArray (get (group alias) (globalState w))) = true ->
  globalState (runAlias alias w)
  = setEntry (group alias)
      (updateFirst (isSameAlias d) incrementFrequency
         (normalizeAliasesToArray (get (group alias) (globalState w))))
      (globalState w) /\
  sentTexts (trace (runAlias alias w)) = sentTexts (trace w) ++ [aliasName d].
Proof.
  intros Hd Hex. unfold runAlias, globalState_get. rewrite Hd.
  rewrite find_existsb in Hex.
  destruct (find _ _) as [hit|]; [|discriminate].
  split; [reflexivity|].
  cbn [executeCommandInTerminal refresh emit globalState_update trace].
  rewrite !sentTexts_app. simpl. now rewrite !app_nil_r.
Qed.

(** X14.  Every run counts: when the group of the item holds an alias of
    the identity of the item, [n] runs of the item raise the sum of the
    counters of that group by [n], send the alias name [n] times to the
    terminal, and leave the identities of the group, in order, as they
    are. *)
Theorem runAlias_counts_every_run :
  forall (alias : AliasItem) (d : Alias) (w : World) (n : nat),
    data alias = Some d ->
    existsb (isSameAlias d)
      (normalizeAliasesToArray (get (group alias) (globalState w))) = true ->
    let wn := Nat.iter n (runAlias alias) w in
    totalFrequency (normalizeAliasesToArray (get (group alias) (globalState wn)))
    = (totalFrequency (normalizeAliasesToArray (get (group alias) (globalState w)))
       + Z.of_nat n)%Z /\
    map identity (normalizeAliasesToArray (get (group alias) (globalState wn)))
    = map identity (normalizeAliasesToArray (get (group alias) (globalState w))) /\
    sentTexts (trace wn) = sentTexts (trace w) ++ repeat (aliasName d) n.
Proof.
  intros alias d w n Hd Hex.
  assert (Hsame : forall a, isSameAlias d a = true ->
                            isSameAlias d (incrementFrequency a) = true)
    by (intros a Ha; exact Ha).
  assert (H : existsb (isSameAlias d)
                (normalizeAliasesToArray
                   (get (group alias) (globalState (Nat.iter n (runAlias alias) w)))) = true
              /\ totalFrequency (normalizeAliasesToArray
                   (get (group alias) (globalState (Nat.iter n (runAlias alias) w))))
                 = (totalFrequency (normalizeAliasesToArray
                      (get (group alias) (globalState w))) + Z.of_nat n)%Z
              /\ map identity (normalizeAliasesToArray
                   (get (group alias) (globalState (Nat.iter n (runAlias alias) w))))
                 = map identity (normalizeAliasesToArray
                      (get (group alias) (globalState w)))
              /\ sentTexts (trace (Nat.iter n (runAlias alias) w))
                 = sentTexts (trace w) ++ repeat (aliasName d) n).
  { induction n as [|n IH].
    - simpl. rewrite app_nil_r. repeat split; [exact Hex | lia].
    - destruct IH as (IH1 & IH2 & IH3 & IH4).
      rewrite !Nat.iter_succ.
      destruct (runAlias_found alias d _ Hd IH1) as (Hs & Ht).
      rewrite Hs, Ht, get_setEntry_eq. cbn [normalizeAliasesToArray].
      rewrite (existsb_updateFirst _ _ _ Hsame), (totalFrequency_increment _ _ IH1),
        (map_identity_updateFirst (isSameAlias d) incrementFrequency _
           (fun a => eq_refl)), IH2, IH3, IH4.
      repeat split; [exact IH1 | lia |].
      rewrite <- app_assoc. f_equal.
      change (aliasName d :: repeat (aliasName d) n) with (repeat (aliasName d) (S n)).
      now rewrite <- repeat_cons. }
  intros wn. subst wn. tauto.
Qed.

Lemma runAlias_counts_every_run_witness :
  totalFrequency
    (normalizeAliasesToArray
       (get "system" (globalState (Nat.iter 3 (runAlias nvItem) sampleWorld))))
  = (totalFrequency [nv; gs] + 3)%Z /\
  sentTexts (trace (Nat.iter 3 (runAlias nvItem) sampleWorld)) = ["nv"; "nv"; "nv"].
Proof.
  destruct (runAlias_counts_every_run nvItem nv sampleWorld 3 eq_refl eq_refl)
    as (H1 & _ & H3).
  split; [exact H1 | exact H3].
Defined.

(* ================================================================== *)
(** ** Edits that follow one another *)

Lemma updateFirst_ext {A} (p : A -> bool) (f g : A -> A) (l : list A) :
  (forall a, f a = g a) -> updateFirst p f l = updateFirst p g l.
Proof.
  intros H. induction l as [|x l IH]; [reflexivity|].
  simpl. now rewrite H, IH.
Qed.

Lemma updateFirst_updateFirst {A} (p : A -> bool) (f g : A -> A) (l : list A) :
  (forall a, p a = true -> p (f a) = true) ->
  updateFirst p g (updateFirst p f l) = updateFirst p (fun a => g (f a)) l.
Proof.
  intros Hf. induction l as [|x l IH]; [reflexivity|].
  simpl. destruct (p x) eqn:E; simpl.
  - now rewrite (Hf x E).
  - now rewrite E, IH.
Qed.

Lemma updateFirst_undone {A} (p p' : A -> bool) (f g : A -> A) (l : list A) :
  (forall a, In a l -> p' a = false) ->
  (forall a, p a = true -> p' (f a) = true) ->
  (forall a, p a = true -> g (f a) = a) ->
  updateFirst p' g (updateFirst p f l) = l.
Proof.
  intros Hnone Hf Hg. induction l as [|x l IH]; [reflexivity|].
  simpl. destruct (p x) eqn:E; simpl.
  - now rewrite (Hf x E), (Hg x E).
  - rewrite (Hnone x (or_introl eq_refl)), IH; [reflexivity|].
    intros a Ha. apply Hnone. now right.
Qed.

(** The store after a loop that edits the first match of every group. *)
Lemma editFirst_store (d : Alias) (edit : Alias -> Alias) (w : World) :
  NoDup (keys (globalState w)) ->
  keys (globalState (rewriteGroups (editFirst d edit) (keys (globalState w)) w))
  = keys (globalState w) /\
  forall g,
    get g (globalState (rewriteGroups (editFirst d edit) (keys (globalState w)) w))
    = option_map (updateFirst (isSameAlias d) edit) (get g (globalState w)).
Proof.
  intros Hnd. split; [apply rewriteGroups_keys; auto|].
  intros g. destruct (get g (globalState w)) as [l|] eqn:Hg.
  - rewrite (rewriteGroups_get_in _ _ _ _ Hnd (get_in_keys _ _ _ Hg)), Hg.
    unfold editFirst. cbn [normalizeAliasesToArray option_map].
    pose proof (find_existsb (isSameAlias d) l) as Hfe.
    destruct (find (isSameAlias d) l); [reflexivity|].
    now rewrite (updateFirst_none _ _ _ Hfe).
  - rewrite rewriteGroups_get_notin; [exact Hg|].
    intros Hin. destruct (in_keys_get _ _ Hin) as [l Hl]. congruence.
Qed.

(** X15.  The last description wins: setting a description and then
    another one on the same item leaves the store as setting the second
    one alone does. *)
Theorem setDescription_last_one_wins :
  forall (alias : AliasItem) (d : Alias) (first second : string) (w : World),
    data alias = Some d ->
    NoDup (keys (globalState w)) ->
    let w2 := setDescription alias (Some second) (setDescription alias (Some first) w) in
    let w1 := setDescription alias (Some second) w in
    keys (globalState w2) = keys (globalState w1) /\
    sameGroups (globalState w1) (globalState w2).
Proof.
  intros alias d t1 t2 w Hd Hnd w2 w1. subst w2 w1.
  rewrite !(setDescription_unfold _ _ _ _ Hd).
  destruct (editFirst_store d (setDescriptionOf t1) w Hnd) as (Ka & Ga).
  set (wa := rewriteGroups (editFirst d (setDescriptionOf t1)) (keys (globalState w)) w)
    in *.
  set (wa' := refresh None wa).
  assert (Hwa : globalState wa' = globalState wa) by reflexivity.
  assert (Hnda : NoDup (keys (globalState wa'))) by (rewrite Hwa, Ka; exact Hnd).
  destruct (editFirst_store d (setDescriptionOf t2) wa' Hnda) as (Kb & Gb).
  destruct (editFirst_store d (setDescriptionOf t2) w Hnd) as (Kc & Gc).
  change (globalState (refresh None ?x)) with (globalState x).
  split.
  - rewrite Kb, Kc, Hwa. exact Ka.
  - intros g. rewrite Gb, Gc, Hwa, Ga.
    destruct (get g (globalState w)) as [l|]; [|reflexivity].
    cbn [option_map]. f_equal.
    rewrite updateFirst_updateFirst by (intros a Ha; exact Ha).
    now apply updateFirst_ext.
Qed.

Lemma setDescription_last_one_wins_witness :
  sameGroups
    (globalState (setDescription nvItem (Some "version") sampleWorld))
    (globalState (setDescription nvItem (Some "version")
                    (setDescription nvItem (Some "draft") sampleWorld))).
Proof.
  apply (setDescription_last_one_wins nvItem nv "draft" "version" sampleWorld eq_refl
           NoDup_sampleStore).
Defined.

(** X16.  When the alias that a rename finds in the group of the item is
    the object the item carries, the rename stops there: the first alias
    of the pre-edit identity is renamed in the groups up to and including
    the group of the item, and every group after it in key order keeps
    its sequence, also when it holds the pre-edit identity. *)
Theorem renameAliasName_stops_at_carried_object :
  forall (alias : AliasItem) (slot : option nat) (d : Alias) (name : string) (w : World),
    data alias = Some d ->
    name <> "" ->
    NoDup (keys (globalState w)) ->
    existsb (lineHasIdentity d) (storeFile w) = true ->
    carriedObjectFound alias slot d (globalState w) = true ->
    let m' := globalState (renameAliasName alias slot (Some name) w) in
    (forall g l, get g (globalState w) = Some l ->
       In g (upTo (group alias) (keys (globalState w))) ->
       get g m'
       = Some (updateFirst (isSameAlias d)
                 (fun a => mkAlias name (command a) (frequency a) (description a)) l)) /\
    (forall g, ~ In g (upTo (group alias) (keys (globalState w))) ->
       get g m' = get g (globalState w)).
Proof.
  intros alias slot d name w Hd Hne Hnd Hfile Hc m'. subst m'.
  destruct (renameAliasName_store alias slot d name w Hd Hne Hfile) as (w0 & H0 & ->).
  rewrite <- H0 in *.
  pose proof (renameLoop_store alias slot (setAliasNameOf name) d _ w0
                (setAliasNameOf_same_identity name d) Hnd) as Hs.
  unfold reachedKeys in Hs. rewrite Hc in Hs. rewrite Hs.
  assert (HR : NoDup (upTo (group alias) (keys (globalState w0))))
    by (now apply upTo_NoDup).
  split.
  - intros g l Hl Hin.
    rewrite (rewriteGroups_get_in _ _ _ _ HR Hin), Hl.
    unfold editFirst. cbn [normalizeAliasesToArray].
    pose proof (find_existsb (isSameAlias d) l) as Hfe.
    destruct (find (isSameAlias d) l); [reflexivity|].
    now rewrite (updateFirst_none _ _ _ Hfe).
  - intros g Hn. now apply rewriteGroups_get_notin.
Qed.

Lemma renameAliasName_stops_at_carried_object_witness :
  get "system" (globalState (renameAliasName nvWorkItem (Some 0%nat) (Some "ver")
                               sharedWorld))
  = Some [mkAlias "ver" "node -v" (Some 0%Z) (Some "")] /\
  get "misc" (globalState (renameAliasName nvWorkItem (Some 0%nat) (Some "ver")
                             sharedWorld))
  = Some [nv].
Proof.
  destruct (renameAliasName_stops_at_carried_object nvWorkItem (Some 0%nat) nv "ver"
              sharedWorld eq_refl) as (H1 & H2).
  - discriminate.
  - repeat constructor; simpl; intuition discriminate.
  - reflexivity.
  - reflexivity.
  - split.
    + apply (H1 "system" [nv] eq_refl). simpl. tauto.
    + apply (H2 "misc"). simpl. intuition discriminate.
Defined.

(* ================================================================== *)
(** ** Populating the tree again *)

(** X17.  Populating the tree is idempotent on the store: a second
    population gives the same store and the same tree as the first, and
    a population right after activation leaves the store of the
    activation as it is. *)
Theorem population_is_idempotent :
  forall (SYSTEM_ALIAS : string) (m : Memento) (f : File) (w : World),
    let w1 := snd (getChildren SYSTEM_ALIAS None w) in
    globalState (snd (getChildren SYSTEM_ALIAS None w1)) = globalState w1 /\
    fst (getChildren SYSTEM_ALIAS None w1) = fst (getChildren SYSTEM_ALIAS None w) /\
    globalState (snd (getChildren SYSTEM_ALIAS None (newAliasView SYSTEM_ALIAS m f)))
    = globalState (newAliasView SYSTEM_ALIAS m f).
Proof.
  intros SYS m f w w1.
  assert (H : globalState (snd (getChildren SYS None w1)) = globalState w1).
  { subst w1. simpl. apply setEntry_setEntry. }
  split; [exact H|]. split.
  - rewrite !getAliasTree_items. now rewrite H.
  - simpl. apply setEntry_setEntry.
Qed.

(* ================================================================== *)
(** ** Groups that come and go *)




(** X19.  add-to-group does not look for the alias in the target: adding
    the same alias to the same group twice leaves two copies of it at the
    end of the group. *)
Theorem addToGroup_twice_adds_two_copies :
  forall (SYSTEM_ALIAS : string) (alias : AliasItem) (d : Alias)
         (i : nat) (target : string) (w : World),
    data alias = Some d ->
    nth_error (candidateGroups SYSTEM_ALIAS alias w) i = Some target ->
    get target
      (globalState (addToGroup SYSTEM_ALIAS alias (Some i)
                      (addToGroup SYSTEM_ALIAS alias (Some i) w)))
    = Some (normalizeAliasesToArray (get target (globalState w)) ++ [d; d]).
Proof.
  intros SYS alias d i target w Hd Hnth.
  assert (Hin : In target (candidateGroups SYS alias w)) by (eapply nth_error_In; eauto).
  pose proof (proj1 (candidateGroups_spec _ _ _ _) Hin) as (Hk & _ & _).
  assert (H1 : addToGroup SYS alias (Some i) w
               = refresh None
                   (globalState_update target
                      (Some (normalizeAliasesToArray (get target (globalState w)) ++ [d]))
                      w)).
  { unfold addToGroup. rewrite Hd, Hnth.
    destruct (candidateGroups SYS alias w); [destruct Hin | reflexivity]. }
  rewrite H1.
  set (w1 := refresh None _).
  assert (Hc : candidateGroups SYS alias w1 = candidateGroups SYS alias w).
  { unfold candidateGroups. subst w1. simpl. now rewrite keys_setEntry_in. }
  unfold addToGroup. rewrite Hd, Hc, Hnth.
  destruct (candidateGroups SYS alias w); [destruct Hin|].
  cbn [isEmpty refresh emit globalState_update globalState update].
  rewrite get_setEntry_eq. unfold globalState_get. subst w1. simpl.
  rewrite get_setEntry_eq. simpl. now rewrite <- app_assoc.
Qed.

Lemma addToGroup_twice_adds_two_copies_witness :
  get "misc"
    (globalState (addToGroup "system" nvItem (Some 1%nat)
                    (addToGroup "system" nvItem (Some 1%nat) sampleWorld)))
  = Some [gp; nv; nv].
Proof.
  exact (addToGroup_twice_adds_two_copies "system" nvItem nv 1%nat "misc" sampleWorld
           eq_refl eq_refl).
Defined.
